(** * Contact-form validation engine of the lusk.cloud landing page

    Shallow embedding of the Form Validator module of
    [lusk-cloud-landing-page/js/navigation.js] (the rule table
    [validationRules] and the functions [validateEmail], [validateField]
    and [validateForm]), together with the part of the ECMAScript
    run time these functions rely on: strings as sequences of UTF-16
    code units, [String.prototype.trim], [typeof], [ToBoolean], property
    lookup through [Object.prototype], and [RegExp.prototype.test] for
    the pattern literal of the e-mail rule. *)

From Stdlib Require Import NArith ZArith Ascii String SpecFloat DecimalString DecimalNat.
From stdpp Require Import base decidable list gmap.

Local Open Scope N_scope.

(** ** Strings *)

Module JsString.

(** A JavaScript string is a finite sequence of UTF-16 code units. *)
Definition code_unit := N.
Definition t := list code_unit.

(** String literals of the source are ASCII: each character is one code
    unit holding its ASCII code. *)
Fixpoint lit (s : string) : t :=
  match s with
  | EmptyString => []
  | String a s' => N_of_ascii a :: lit s'
  end.

Definition well_formed (s : t) : Prop := Forall (fun c => c < 65536) s.

(** [WhiteSpace] and [LineTerminator] code points of ECMAScript: the set
    removed by [trim] and matched by the class escape [\s]. *)
Definition is_whitespace (c : code_unit) : bool :=
  (c =? 0x0009) || (c =? 0x000A) || (c =? 0x000B) || (c =? 0x000C)
  || (c =? 0x000D) || (c =? 0x0020) || (c =? 0x00A0) || (c =? 0x1680)
  || ((0x2000 <=? c) && (c <=? 0x200A))
  || (c =? 0x2028) || (c =? 0x2029) || (c =? 0x202F) || (c =? 0x205F)
  || (c =? 0x3000) || (c =? 0xFEFF).

Definition all_whitespace (s : t) : bool := forallb is_whitespace s.

(** [String.prototype.trimStart]. *)
Fixpoint trimStart (s : t) : t :=
  match s with
  | [] => []
  | c :: s' => if is_whitespace c then trimStart s' else s
  end.

(** [String.prototype.trimEnd]. *)
Definition trimEnd (s : t) : t := rev (trimStart (rev s)).

(** [String.prototype.trim]: leading and trailing white space removed. *)
Definition trim (s : t) : t := trimEnd (trimStart s).

(** [s === ''] *)
Definition is_empty (s : t) : bool :=
  match s with [] => true | _ :: _ => false end.

(** [a === b] on strings. *)
Definition eqb (a b : t) : bool := bool_decide (a = b).

End JsString.

Abbreviation jsstring := JsString.t.
Notation "'js' s" := (JsString.lit s%string) (at level 9, s at level 0, only parsing).

(** ** Values *)

(** The ECMAScript language values.  Numbers are IEEE 754 doubles; every
    object (plain object, array, function) is an opaque reference, since
    the validators only observe its type and its truthiness. *)
Inductive jsvalue :=
| VUndefined
| VNull
| VBoolean (b : bool)
| VNumber (n : spec_float)
| VBigInt (z : Z)
| VSymbol (id : nat)
| VString (s : jsstring)
| VObject (callable : bool) (addr : nat).

(** The [typeof] operator. *)
Definition typeof (v : jsvalue) : jsstring :=
  match v with
  | VUndefined => js "undefined"
  | VNull => js "object"
  | VBoolean _ => js "boolean"
  | VNumber _ => js "number"
  | VBigInt _ => js "bigint"
  | VSymbol _ => js "symbol"
  | VString _ => js "string"
  | VObject callable _ => if callable then js "function" else js "object"
  end.

(** The abstract operation [ToBoolean]. *)
Definition ToBoolean (v : jsvalue) : bool :=
  match v with
  | VUndefined | VNull => false
  | VBoolean b => b
  | VNumber (S754_zero _) | VNumber S754_nan => false
  | VNumber _ => true
  | VBigInt z => negb (z =? 0)%Z
  | VSymbol _ => true
  | VString s => negb (JsString.is_empty s)
  | VObject _ _ => true
  end.

(** The operator [a || b]. *)
Definition js_or (a b : jsvalue) : jsvalue := if ToBoolean a then a else b.

(** ** Regular expressions *)

Module RegExp.
Import JsString.

(** The fragment of the pattern grammar used by the rule table. *)
Inductive class_atom :=
| ClassChar (c : code_unit)        (* a single character of a class *)
| ClassWhiteSpace.                 (* the class escape \s *)

Inductive regex :=
| Empty
| PatternChar (c : code_unit)      (* a literal, or an identity escape as \. *)
| CharClass (invert : bool) (atoms : list class_atom)   (* [...] and [^...] *)
| AssertStart                      (* ^ *)
| AssertEnd                        (* $ *)
| Plus (r : regex)                 (* greedy r+ *)
| Seq (r1 r2 : regex).             (* Alternative :: Alternative Term *)

(** A match state: the index reached in the input and the input that
    remains from there (no capture groups in this fragment). *)
Record MatchState := { endIndex : nat; rest : jsstring }.

Definition MatchResult := option MatchState.
Definition Continuation := MatchState → MatchResult.
Definition Matcher := MatchState → Continuation → MatchResult.

Definition atom_contains (a : class_atom) (ch : code_unit) : bool :=
  match a with
  | ClassChar c => ch =? c
  | ClassWhiteSpace => is_whitespace ch
  end.

Definition class_contains (atoms : list class_atom) (ch : code_unit) : bool :=
  existsb (fun a => atom_contains a ch) atoms.

(** [CharacterSetMatcher]: consume one code unit if it is in the set
    (or not in it, when [invert]). *)
Definition CharacterSetMatcher (A : code_unit → bool) (invert : bool) : Matcher :=
  fun x c =>
    match rest x with
    | [] => None
    | ch :: rest' =>
        if xorb (A ch) invert
        then c {| endIndex := S (endIndex x); rest := rest' |}
        else None
    end.

(** [RepeatMatcher] for a greedy quantifier without upper bound.  An
    iteration that matches the empty string once [min] is exhausted
    fails, so [fuel] larger than [min] plus the remaining input is never
    used up. *)
Fixpoint RepeatMatcher (fuel : nat) (m : Matcher) (min : nat)
    (x : MatchState) (c : Continuation) : MatchResult :=
  match fuel with
  | O => None
  | S fuel' =>
      let d : Continuation := fun y =>
        if (min =? 0)%nat && (endIndex y =? endIndex x)%nat then None
        else RepeatMatcher fuel' m (pred min) y c in
      if negb (min =? 0)%nat then m x d
      else match m x d with
           | Some z => Some z
           | None => c x
           end
  end.

(** Compilation of a pattern to a backtracking matcher. *)
Fixpoint compile (r : regex) : Matcher :=
  match r with
  | Empty => fun x c => c x
  | PatternChar ch => CharacterSetMatcher (N.eqb ch) false
  | CharClass invert atoms => CharacterSetMatcher (class_contains atoms) invert
  | AssertStart => fun x c => if (endIndex x =? 0)%nat then c x else None
  | AssertEnd => fun x c => if is_empty (rest x) then c x else None
  | Plus r' => fun x c => RepeatMatcher (2 + length (rest x)) (compile r') 1 x c
  | Seq r1 r2 => fun x c => compile r1 x (fun y => compile r2 y c)
  end.

(** A RegExp object: its pattern and flags are fixed at creation; its
    [lastIndex] property is mutable and lives in the heap. *)
Record object := { source : regex; global : bool; sticky : bool }.

(** The search loop of [RegExpBuiltinExec]: try to match at [lastIndex],
    and move one code unit forward on failure unless the regexp is
    sticky. *)
Fixpoint search (m : Matcher) (is_sticky : bool) (lastIndex : nat)
    (suffix : jsstring) : MatchResult :=
  match m {| endIndex := lastIndex; rest := suffix |} (fun y => Some y) with
  | Some r => Some r
  | None =>
      if is_sticky then None
      else match suffix with
           | [] => None
           | _ :: suffix' => search m is_sticky (S lastIndex) suffix'
           end
  end.

(** Whether a search of [s] from index 0 finds a match: the outcome of
    [test] for a regexp without the [g] and [y] flags. *)
Definition accepts (r : regex) (s : jsstring) : bool :=
  bool_decide (is_Some (search (compile r) false 0 s)).

End RegExp.

(** ** The module state *)

(** The only mutable location the validators can reach is the [lastIndex]
    property of the RegExp object created by the pattern literal of the
    e-mail rule.  Computations thread it explicitly. *)
Definition heap := nat.

Definition M (A : Type) : Type := heap → A * heap.

#[export] Instance M_ret : MRet M := fun A a h => (a, h).
#[export] Instance M_bind : MBind M := fun A B f m h => let '(a, h') := m h in f a h'.
#[export] Instance M_fmap : FMap M := fun A B f m h => let '(a, h') := m h in (f a, h').

Definition get_lastIndex : M nat := fun h => (h, h).
Definition set_lastIndex (i : nat) : M unit := fun _ => (tt, i).

(** Result of running a computation from a given heap. *)
Definition eval {A} (m : M A) (h : heap) : A := fst (m h).

(** The heap once the module is loaded, and the result of a computation
    started there. *)
Definition initial_heap : heap := 0%nat.
Definition run {A} (m : M A) : A := eval m initial_heap.

(** Expose the state passing of a monadic term. *)
Ltac unfold_monad :=
  unfold mbind, M_bind, mret, M_ret, fmap, M_fmap in *.

Module RegExpObject.
Import RegExp.

(** [RegExpBuiltinExec (R, S)]. *)
Definition RegExpBuiltinExec (R : object) (S : jsstring) : M MatchResult :=
  i ← get_lastIndex;
  let lastIndex := if global R || sticky R then i else 0%nat in
  if (length S <? lastIndex)%nat then
    _ ← (if global R || sticky R then set_lastIndex 0 else mret tt);
    mret None
  else
    match search (compile (source R)) (sticky R) lastIndex (drop lastIndex S) with
    | None =>
        _ ← (if global R || sticky R then set_lastIndex 0 else mret tt);
        mret None
    | Some r =>
        _ ← (if global R || sticky R then set_lastIndex (endIndex r) else mret tt);
        mret (Some r)
    end.

(** [RegExp.prototype.test]. *)
Definition test (R : object) (S : jsstring) : M bool :=
  r ← RegExpBuiltinExec R S;
  mret (bool_decide (is_Some r)).

End RegExpObject.

(** ** The rule table *)

Module Rule.

(** A rule object.  A property that the object does not have reads as
    [undefined]: [None] for the constraints, [VUndefined] for the
    message. *)
Record t := {
  required : option bool;
  minLength : option nat;
  maxLength : option nat;
  pattern : option RegExp.object;
  errorMessage : jsvalue
}.

(** Truthiness of [rules.required]. *)
Definition is_required (r : t) : bool := default false (required r).

(** [bound && cmp]: an absent bound and the number 0 are falsy. *)
Definition bound_violated (bound : option nat) (cmp : nat → bool) : bool :=
  match bound with
  | None => false
  | Some n => negb (n =? 0)%nat && cmp n
  end.

End Rule.

Module Import Pattern.
Import RegExp.

(** The character class [[^\s@]]. *)
Definition not_space_or_at : regex :=
  CharClass true [ClassWhiteSpace; ClassChar 0x40].

(** The pattern [^[^\s@]+@[^\s@]+\.[^\s@]+$]. *)
Definition email_regex : regex :=
  Seq (Seq (Seq (Seq (Seq (Seq
    AssertStart
    (Plus not_space_or_at))
    (PatternChar 0x40))
    (Plus not_space_or_at))
    (PatternChar 0x2E))
    (Plus not_space_or_at))
    AssertEnd.

(** The RegExp object of the literal: no flags. *)
Definition email_pattern : object :=
  {| source := email_regex; global := false; sticky := false |}.

End Pattern.

(** The three rule objects of the table. *)
Definition rule_name : Rule.t :=
  {| Rule.required := Some true;
     Rule.minLength := Some 2%nat;
     Rule.maxLength := Some 100%nat;
     Rule.pattern := None;
     Rule.errorMessage := VString (js "Please enter your name (2-100 characters)") |}.

Definition rule_email : Rule.t :=
  {| Rule.required := Some true;
     Rule.minLength := None;
     Rule.maxLength := None;
     Rule.pattern := Some email_pattern;
     Rule.errorMessage := VString (js "Please enter a valid email address") |}.

Definition rule_message : Rule.t :=
  {| Rule.required := Some true;
     Rule.minLength := Some 10%nat;
     Rule.maxLength := Some 1000%nat;
     Rule.pattern := None;
     Rule.errorMessage := VString (js "Please enter a message (10-1000 characters)") |}.

(** Own properties of [validationRules], in creation order (the order in
    which [for ... in] visits them). *)
Definition validationRules : list (jsstring * Rule.t) :=
  [ (js "name", rule_name); (js "email", rule_email); (js "message", rule_message) ].

(** Property names that every plain object inherits from
    [Object.prototype]; each of them reads as a function, or as the
    prototype object itself for [__proto__]. *)
Definition Object_prototype_keys : list jsstring :=
  [ js "constructor"; js "hasOwnProperty"; js "isPrototypeOf";
    js "propertyIsEnumerable"; js "toLocaleString"; js "toString";
    js "valueOf"; js "__proto__"; js "__defineGetter__";
    js "__defineSetter__"; js "__lookupGetter__"; js "__lookupSetter__" ].

(** What the rule properties read as on an inherited member: none of
    [required], [minLength], [maxLength], [pattern], [errorMessage] is
    defined on a built-in function or on [Object.prototype]. *)
Definition inherited_member : Rule.t :=
  {| Rule.required := None; Rule.minLength := None; Rule.maxLength := None;
     Rule.pattern := None; Rule.errorMessage := VUndefined |}.

Fixpoint own_property {A} (key : jsstring) (props : list (jsstring * A)) : option A :=
  match props with
  | [] => None
  | (k, v) :: props' => if JsString.eqb k key then Some v else own_property key props'
  end.

(** [validationRules[fieldName]]: the own property, else the member
    inherited from [Object.prototype], else [undefined] ([None]). *)
Definition validationRules_get (fieldName : jsstring) : option Rule.t :=
  match own_property fieldName validationRules with
  | Some rules => Some rules
  | None =>
      if bool_decide (fieldName ∈ Object_prototype_keys)
      then Some inherited_member
      else None
  end.

(** ** The validators *)

Module Field.
Record result := { isValid : bool; errorMessage : jsvalue }.

(** [{ isValid: true, errorMessage: '' }] *)
Definition pass : result := {| isValid := true; errorMessage := VString [] |}.
(** [{ isValid: false, errorMessage: rules.errorMessage }] *)
Definition fail (rules : Rule.t) : result :=
  {| isValid := false; errorMessage := Rule.errorMessage rules |}.
End Field.

Module Form.
Record result := { isValid : bool; errors : gmap jsstring jsvalue }.
End Form.

(** Case analysis on the condition that decides a field's verdict. *)
Ltac case_verdict :=
  match goal with
  | |- context [if ?c then Field.pass else _] => destruct c
  end.

(** [validateEmail(email)]; [validationRules.email.pattern] is the object
    [email_pattern]. *)
Definition validateEmail (email : jsvalue) : M bool :=
  match email with
  | VString s =>
      let trimmedEmail := JsString.trim s in
      if JsString.is_empty trimmedEmail then mret false
      else RegExpObject.test email_pattern trimmedEmail
  | _ => mret false
  end.

(** [typeof value === 'string' ? value.trim() : ''] *)
Definition trimmed (value : jsvalue) : jsstring :=
  match value with
  | VString s => JsString.trim s
  | _ => []
  end.

(** [validateField(fieldName, value)] *)
Definition validateField (fieldName : jsstring) (value : jsvalue) : M Field.result :=
  match validationRules_get fieldName with
  | None => mret Field.pass
  | Some rules =>
      let trimmedValue := trimmed value in
      if Rule.is_required rules && JsString.is_empty trimmedValue then
        mret (Field.fail rules)
      else if negb (Rule.is_required rules) && JsString.is_empty trimmedValue then
        mret Field.pass
      else
        bad_email ←
          (if JsString.eqb fieldName (js "email")
           then negb <$> validateEmail (VString trimmedValue)
           else mret false);
        if bad_email : bool then mret (Field.fail rules)
        else if Rule.bound_violated (Rule.minLength rules)
                  (fun n => (length trimmedValue <? n)%nat) then
          mret (Field.fail rules)
        else if Rule.bound_violated (Rule.maxLength rules)
                  (fun n => (n <? length trimmedValue)%nat) then
          mret (Field.fail rules)
        else mret Field.pass
  end.

(** [formData[fieldName]]: an own property of the submitted record, else
    [undefined]. *)
Definition formData_get (formData : gmap jsstring jsvalue) (fieldName : jsstring) : jsvalue :=
  default VUndefined (formData !! fieldName).

(** What a field is validated as: its entry in the submitted record, and
    the empty string when the record has no such entry. *)
Definition submitted (formData : gmap jsstring jsvalue) (fieldName : jsstring) : jsvalue :=
  default (VString []) (formData !! fieldName).

(** [formData[fieldName] || ''] *)
Definition field_value (formData : gmap jsstring jsvalue) (fieldName : jsstring) : jsvalue :=
  js_or (formData_get formData fieldName) (VString []).

(** The body of the [for ... in] loop of [validateForm], over the
    remaining keys, with the current [isValid] and [errors]. *)
Fixpoint validateForm_loop (keys : list jsstring) (formData : gmap jsstring jsvalue)
    (isValid : bool) (errors : gmap jsstring jsvalue) : M Form.result :=
  match keys with
  | [] => mret {| Form.isValid := isValid; Form.errors := errors |}
  | fieldName :: keys' =>
      let value := field_value formData fieldName in
      result ← validateField fieldName value;
      if negb (Field.isValid result)
      then validateForm_loop keys' formData false
             (<[fieldName := Field.errorMessage result]> errors)
      else validateForm_loop keys' formData isValid errors
  end.

(** [validateForm(formData)] *)
Definition validateForm (formData : gmap jsstring jsvalue) : M Form.result :=
  validateForm_loop (validationRules.*1) formData true ∅.

(** ** The e-mail shape in words *)

(** The prose description of an accepted address: exactly one [@]; a
    non-empty local part before it; a domain part after it that contains
    a [.] with non-empty text on both of its sides; no white space
    anywhere. *)
Module EmailShape.
Import JsString.

Definition AT : code_unit := 0x40.
Definition DOT : code_unit := 0x2E.

(** Number of occurrences of a code unit. *)
Fixpoint count (sep : code_unit) (s : t) : nat :=
  match s with
  | [] => 0%nat
  | c :: s' => if c =? sep then S (count sep s') else count sep s'
  end.

(** The text before, and the text after, the first separator. *)
Fixpoint before (sep : code_unit) (s : t) : t :=
  match s with
  | [] => []
  | c :: s' => if c =? sep then [] else c :: before sep s'
  end.

Fixpoint after (sep : code_unit) (s : t) : t :=
  match s with
  | [] => []
  | c :: s' => if c =? sep then s' else after sep s'
  end.

Definition local_part (s : t) : t := before AT s.
Definition domain_part (s : t) : t := after AT s.

(** Some [.] of [d] is followed by at least one code unit. *)
Fixpoint dot_then_text (d : t) : bool :=
  match d with
  | [] => false
  | c :: d' => ((c =? DOT) && negb (is_empty d')) || dot_then_text d'
  end.

(** Some [.] of [d] has text before it and text after it. *)
Definition has_inner_dot (d : t) : bool :=
  match d with
  | [] => false
  | _ :: d' => dot_then_text d'
  end.

Definition no_whitespace (s : t) : bool :=
  forallb (fun c => negb (is_whitespace c)) s.

(** A code unit that is neither white space nor [@]. *)
Definition email_char (c : code_unit) : bool :=
  negb (is_whitespace c) && negb (c =? AT).

(** [s] is [l @ d1 . d2] with three non-empty runs of such code units. *)
Definition splits (s l d1 d2 : t) : Prop :=
  s = l ++ AT :: d1 ++ DOT :: d2
  ∧ l ≠ [] ∧ d1 ≠ [] ∧ d2 ≠ []
  ∧ forallb email_char l = true
  ∧ forallb email_char d1 = true
  ∧ forallb email_char d2 = true.

Definition email_shape (s : t) : bool :=
  (count AT s =? 1)%nat
  && negb (is_empty (local_part s))
  && has_inner_dot (domain_part s)
  && no_whitespace s.

End EmailShape.

(** * The rest of the page script *)

(** ** Numbers *)

Module Number.

(** Exact comparison of a double with an integer: [None] when the double
    is [NaN].  Relational operators on numbers compare the real values,
    and a finite double [m * 2^e] is compared with [z] without rounding. *)
Definition compare_Z (x : spec_float) (z : Z) : option comparison :=
  match x with
  | S754_nan => None
  | S754_infinity s => Some (if s then Lt else Gt)
  | S754_zero _ => Some (0 ?= z)%Z
  | S754_finite s m e =>
      let v := if s then Zneg m else Zpos m in
      if (0 <=? e)%Z then Some (v * 2 ^ e ?= z)%Z
      else Some (v ?= z * 2 ^ (- e))%Z
  end.

(** [x > z] and [z > x], for an integer [z]. *)
Definition gt_Z (x : spec_float) (z : Z) : bool :=
  match compare_Z x z with Some Gt => true | _ => false end.

Definition Z_gt (z : Z) (x : spec_float) : bool :=
  match compare_Z x z with Some Lt => true | _ => false end.

(** The Number of a natural number (exact below 2^53). *)
Definition of_nat (n : nat) : spec_float :=
  binary_normalize 53 1024 (Z.of_nat n) 0 false.

(** The literal [0.9]: the double nearest to nine tenths. *)
Definition literal_0_9 : spec_float := S754_finite false 8106479329266893 (-53).

(** Multiplication of doubles. *)
Definition mul (x y : spec_float) : spec_float := SFmul 53 1024 x y.

(** [ToString] of an integer Number, as in a template literal. *)
Definition toString_nat (n : nat) : jsstring :=
  JsString.lit (NilZero.string_of_uint (Nat.to_uint n)).

End Number.

(** ** The document *)

Module Dom.

(** An element is referred to by a node identifier. *)
Definition node := nat.

(** The properties of an element that the page script reads or writes.
    [textContent] holds the value last assigned to the property.

    [value] is what the property [value] reads as.  For most elements it
    is a state of its own, which an assignment to [textContent] leaves
    alone: an [input], a [button], a [textarea] that has been edited;
    [value_of_text] is then [None].  For an element whose value is taken
    from its content ([output], a [textarea] that has not been edited, an
    [option] without a [value] attribute), [value_of_text] is [Some f]:
    assigning [v] to [textContent] makes [f v] the value. *)
Record element := {
  tagName : jsstring;
  name : jsstring;
  value : jsstring;
  value_of_text : option (jsvalue → jsstring);
  classList : gset jsstring;
  attributes : gmap jsstring jsstring;
  textContent : jsvalue;
  hidden : bool;
  disabled : bool;
  display : jsstring
}.

Definition with_classList (f : gset jsstring → gset jsstring) (el : element) : element :=
  {| tagName := tagName el; name := name el; value := value el;
     value_of_text := value_of_text el;
     classList := f (classList el); attributes := attributes el;
     textContent := textContent el; hidden := hidden el;
     disabled := disabled el; display := display el |}.

Definition with_attributes (f : gmap jsstring jsstring → gmap jsstring jsstring)
    (el : element) : element :=
  {| tagName := tagName el; name := name el; value := value el;
     value_of_text := value_of_text el;
     classList := classList el; attributes := f (attributes el);
     textContent := textContent el; hidden := hidden el;
     disabled := disabled el; display := display el |}.

Definition with_textContent (v : jsvalue) (el : element) : element :=
  {| tagName := tagName el; name := name el;
     value := match value_of_text el with
              | Some f => f v
              | None => value el
              end;
     value_of_text := value_of_text el;
     classList := classList el; attributes := attributes el;
     textContent := v; hidden := hidden el;
     disabled := disabled el; display := display el |}.

Definition with_hidden (b : bool) (el : element) : element :=
  {| tagName := tagName el; name := name el; value := value el;
     value_of_text := value_of_text el;
     classList := classList el; attributes := attributes el;
     textContent := textContent el; hidden := b;
     disabled := disabled el; display := display el |}.

Definition with_disabled (b : bool) (el : element) : element :=
  {| tagName := tagName el; name := name el; value := value el;
     value_of_text := value_of_text el;
     classList := classList el; attributes := attributes el;
     textContent := textContent el; hidden := hidden el;
     disabled := b; display := display el |}.

Definition with_display (s : jsstring) (el : element) : element :=
  {| tagName := tagName el; name := name el; value := value el;
     value_of_text := value_of_text el;
     classList := classList el; attributes := attributes el;
     textContent := textContent el; hidden := hidden el;
     disabled := disabled el; display := s |}.

(** An element without classes, attributes or content, with a value of
    its own. *)
Definition plain (tag : jsstring) : element :=
  {| tagName := tag; name := []; value := []; value_of_text := None;
     classList := ∅; attributes := ∅;
     textContent := VString []; hidden := false; disabled := false; display := [] |}.

(** The elements of the document.  Every node identifier denotes an
    element; two identifiers denote the same element exactly when they
    are equal.  The document is a store of elements, not a tree: an
    element that receives text is taken to contain no other element of
    the store. *)
Definition document := node → element.

Definition update (n : node) (f : element → element) (d : document) : document :=
  fun m => if decide (m = n) then f (d m) else d m.

(** [n.classList.add(c)], [.remove(c)], [.toggle(c, force)],
    [.contains(c)] *)
Definition classList_add (n : node) (c : jsstring) : document → document :=
  update n (with_classList (fun cs => {[c]} ∪ cs)).

Definition classList_remove (n : node) (c : jsstring) : document → document :=
  update n (with_classList (fun cs => cs ∖ {[c]})).

Definition classList_toggle (n : node) (c : jsstring) (force : bool) : document → document :=
  if force then classList_add n c else classList_remove n c.

Definition classList_contains (n : node) (c : jsstring) (d : document) : bool :=
  bool_decide (c ∈ classList (d n)).

(** [n.setAttribute(k, v)], [.removeAttribute(k)], [.hasAttribute(k)],
    [.getAttribute(k)] *)
Definition setAttribute (n : node) (k v : jsstring) : document → document :=
  update n (with_attributes (fun a => <[k := v]> a)).

Definition removeAttribute (n : node) (k : jsstring) : document → document :=
  update n (with_attributes (fun a => delete k a)).

Definition hasAttribute (n : node) (k : jsstring) (d : document) : bool :=
  bool_decide (is_Some (attributes (d n) !! k)).

Definition getAttribute (n : node) (k : jsstring) (d : document) : option jsstring :=
  attributes (d n) !! k.

(** Assignments to [textContent] (which also gives the element the value
    of its new content, when its value is taken from the content),
    [hidden], [disabled] and [style.display]. *)
Definition set_textContent (n : node) (v : jsvalue) : document → document :=
  update n (with_textContent v).

Definition set_hidden (n : node) (b : bool) : document → document :=
  update n (with_hidden b).

Definition set_disabled (n : node) (b : bool) : document → document :=
  update n (with_disabled b).

Definition set_display (n : node) (s : jsstring) : document → document :=
  update n (with_display s).

End Dom.

(** ** Navigation module *)

Module Nav.
Import Dom.

(** What the selectors of the module find: [#nav-toggle], [#nav-menu] and
    the first [.nav-link] inside the menu, if there is one.  The script
    never changes the classes or identifiers these selectors look at. *)
Record refs := { navToggle : node; navMenu : node; firstLink : option node }.

(** The module variable [isMenuOpen], the elements, the value of
    [document.body.style.overflow], and the element on which [focus()] was
    called last. *)
Record state := {
  isMenuOpen : bool;
  dom : document;
  overflow : jsstring;
  focus : option node
}.

(** [b.toString()] *)
Definition Boolean_toString (b : bool) : jsstring :=
  if b then js "true" else js "false".

(** [toggleMobileMenu(navToggle, navMenu)] *)
Definition toggleMobileMenu (r : refs) (st : state) : state :=
  let open := negb (isMenuOpen st) in
  let dom1 := classList_toggle (navMenu r) (js "is-active") open (dom st) in
  let dom2 := setAttribute (navToggle r) (js "aria-expanded") (Boolean_toString open) dom1 in
  {| isMenuOpen := open;
     dom := dom2;
     overflow := if open then js "hidden" else [];
     focus :=
       if open then
         match firstLink r with
         | Some link => Some link
         | None => focus st
         end
       else Some (navToggle r) |}.

(** [closeMobileMenu(navToggle, navMenu)] *)
Definition closeMobileMenu (r : refs) (st : state) : state :=
  if isMenuOpen st then
    {| isMenuOpen := false;
       dom := setAttribute (navToggle r) (js "aria-expanded") (js "false")
                (classList_remove (navMenu r) (js "is-active") (dom st));
       overflow := [];
       focus := focus st |}
  else st.

Definition focus_on (n : node) (st : state) : state :=
  {| isMenuOpen := isMenuOpen st; dom := dom st; overflow := overflow st;
     focus := Some n |}.

(** [a === b] for [document.activeElement] (an element or [null]) and an
    entry of a node list (an element or [undefined]). *)
Definition same_element (a b : option node) : bool :=
  match a, b with
  | Some x, Some y => bool_decide (x = y)
  | _, _ => false
  end.

(** The listeners that the module registers. *)
Inductive event :=
| ToggleClick                                   (* click on the toggle *)
| DocumentClick (insideMenu onToggle : bool)    (* click, with what [contains] answers *)
| NavLinkClick                                  (* click on a [.nav-link] *)
| DocumentKeydown (key : jsstring)
| ToggleKeydown (key : jsstring)
| MenuKeydown (key : jsstring) (shiftKey : bool)
    (activeElement : option node) (focusableElements : list node).

Definition handle (r : refs) (ev : event) (st : state) : state :=
  match ev with
  | ToggleClick => toggleMobileMenu r st
  | DocumentClick isClickInsideMenu isClickOnToggle =>
      if negb (isMenuOpen st) then st
      else if negb isClickInsideMenu && negb isClickOnToggle
      then closeMobileMenu r st
      else st
  | NavLinkClick => closeMobileMenu r st
  | DocumentKeydown key =>
      if JsString.eqb key (js "Escape") && isMenuOpen st
      then focus_on (navToggle r) (closeMobileMenu r st)
      else st
  | ToggleKeydown key =>
      if JsString.eqb key (js "Enter") || JsString.eqb key (js " ")
      then toggleMobileMenu r st
      else st
  | MenuKeydown key shiftKey activeElement focusableElements =>
      if negb (isMenuOpen st) || negb (JsString.eqb key (js "Tab")) then st
      else
        let firstElement := head focusableElements in
        let lastElement := last focusableElements in
        if shiftKey && same_element activeElement firstElement
        then focus_on (navToggle r) st
        else if negb shiftKey && same_element activeElement lastElement
        then focus_on (navToggle r) st
        else st
  end.

(** The events that call [toggleMobileMenu]. *)
Definition is_toggle (ev : event) : bool :=
  match ev with
  | ToggleClick => true
  | ToggleKeydown key => JsString.eqb key (js "Enter") || JsString.eqb key (js " ")
  | _ => false
  end.

Definition run (r : refs) (evs : list event) (st : state) : state :=
  foldl (fun s ev => handle r ev s) st evs.

(** The menu's markup agrees with [isMenuOpen]. *)
Definition consistent (r : refs) (st : state) : Prop :=
  (js "is-active" ∈ classList (dom st (navMenu r)) ↔ isMenuOpen st = true)
  ∧ getAttribute (navToggle r) (js "aria-expanded") (dom st)
    = Some (Boolean_toString (isMenuOpen st))
  ∧ overflow st = (if isMenuOpen st then js "hidden" else []).

End Nav.

(** ** Sticky header *)

Module Sticky.
Import Dom.

Definition STICKY_THRESHOLD : Z := 50.

(** The closure variable [ticking], the elements, and the number of
    [updateStickyState] callbacks waiting for the next animation frame. *)
Record state := { dom : document; ticking : bool; frames : nat }.

(** What [window.scrollY] and [window.pageYOffset] read as: a number, or
    [undefined] where the property does not exist. *)
Record window := { scrollY : option spec_float; pageYOffset : option spec_float }.

Definition read (p : option spec_float) : jsvalue :=
  match p with Some x => VNumber x | None => VUndefined end.

(** [v > STICKY_THRESHOLD] for a number or [undefined]. *)
Definition above_threshold (v : jsvalue) : bool :=
  match v with
  | VNumber x => Number.gt_Z x STICKY_THRESHOLD
  | _ => false
  end.

(** [updateStickyState()] *)
Definition updateStickyState (header : node) (w : window) (st : state) : state :=
  let scrollY := js_or (read (scrollY w)) (read (pageYOffset w)) in
  {| dom := if above_threshold scrollY
            then classList_add header (js "is-sticky") (dom st)
            else classList_remove header (js "is-sticky") (dom st);
     ticking := false;
     frames := frames st |}.

(** [onScroll()] *)
Definition onScroll (st : state) : state :=
  if negb (ticking st)
  then {| dom := dom st; ticking := true; frames := S (frames st) |}
  else st.

(** An animation frame: the callbacks that were waiting run, in turn. *)
Definition animationFrame (header : node) (w : window) (st : state) : state :=
  Nat.iter (frames st) (updateStickyState header w)
    {| dom := dom st; ticking := ticking st; frames := 0 |}.

(** [initStickyNavigation(header)], up to the registration of the
    listener. *)
Definition initStickyNavigation (header : node) (w : window) (d : document) : state :=
  updateStickyState header w {| dom := d; ticking := false; frames := 0 |}.

Inductive event := Scroll | Frame (w : window).

Definition handle (header : node) (ev : event) (st : state) : state :=
  match ev with
  | Scroll => onScroll st
  | Frame w => animationFrame header w st
  end.

Definition run (header : node) (evs : list event) (st : state) : state :=
  foldl (fun s ev => handle header ev s) st evs.

(** At most one update waits for the next frame, and one waits exactly
    when [ticking] is set. *)
Definition throttled (st : state) : Prop :=
  frames st = if ticking st then 1%nat else 0%nat.

End Sticky.

(** ** Smooth scroll module *)

Module SmoothScroll.
Import Dom JsString.

(** [s.startsWith(p)] *)
Fixpoint startsWith (p s : jsstring) : bool :=
  match p, s with
  | [], _ => true
  | _ :: _, [] => false
  | a :: p', b :: s' => (a =? b) && startsWith p' s'
  end.

(** The first match of a regexp without flags: where it starts and where
    it ends. *)
Fixpoint search_span (m : RegExp.Matcher) (lastIndex : nat) (suffix : jsstring)
    : option (nat * nat) :=
  match m {| RegExp.endIndex := lastIndex; RegExp.rest := suffix |} (fun y => Some y) with
  | Some r => Some (lastIndex, RegExp.endIndex r)
  | None =>
      match suffix with
      | [] => None
      | _ :: suffix' => search_span m (S lastIndex) suffix'
      end
  end.

(** [s.replace(r, replacement)] for a regexp without flags and a
    replacement text without [$]. *)
Definition replace (r : RegExp.regex) (replacement s : jsstring) : jsstring :=
  match search_span (RegExp.compile r) 0 s with
  | None => s
  | Some (i, e) => take i s ++ replacement ++ drop e s
  end.

(** The pattern [^#]. *)
Definition leading_hash : RegExp.regex :=
  RegExp.Seq RegExp.AssertStart (RegExp.PatternChar 0x23).

(** [targetId.replace(/^#/, '')], the identifier that [smoothScrollTo]
    looks up. *)
Definition cleanId (targetId : jsstring) : jsstring :=
  replace leading_hash [] targetId.

(** [handleNavLinkClick]: the argument passed to [smoothScrollTo], or
    [None] when the handler returns without handling the click.  [href]
    is what [getAttribute('href')] gives: a string or [null]. *)
Definition handleNavLinkClick_target (href : option jsstring) : option jsstring :=
  match href with
  | None => None
  | Some href =>
      if is_empty href || negb (startsWith (js "#") href) || eqb href (js "#")
      then None
      else Some (drop 1 href)
  end.

(** [handleInitialHash]: the argument passed to [smoothScrollTo], or
    [None] when no scroll is scheduled. *)
Definition handleInitialHash_target (hash : jsstring) : option jsstring :=
  if negb (is_empty hash) && (1 <? length hash)%nat then Some hash else None.

(** The element that a click on a link, and a page load with a hash,
    scroll to. *)
Definition link_destination (ids : gmap jsstring node) (href : option jsstring)
    : option node :=
  targetId ← handleNavLinkClick_target href; ids !! cleanId targetId.

Definition hash_destination (ids : gmap jsstring node) (hash : jsstring) : option node :=
  targetId ← handleInitialHash_target hash; ids !! cleanId targetId.

(** *** [getNavOffset] *)

Definition is_digit (c : code_unit) : bool := (0x30 <=? c) && (c <=? 0x39).

Fixpoint digits_prefix (s : jsstring) : jsstring :=
  match s with
  | c :: s' => if is_digit c then c :: digits_prefix s' else []
  | [] => []
  end.

(** The value of a string of decimal digits. *)
Definition digits_value (ds : jsstring) : N :=
  foldl (fun acc c => 10 * acc + (c - 0x30)) 0 ds.

(** [parseInt(s, 10)]: leading white space is skipped, a sign is read,
    then the longest prefix of decimal digits; [NaN] when there is no
    digit.  The integer is rounded to the nearest double. *)

(** An optional sign in front of the digits: whether it is [-], and what
    follows it. *)
Definition strip_sign (s : jsstring) : bool * jsstring :=
  match s with
  | c :: rest =>
      if c =? 0x2D then (true, rest)
      else if c =? 0x2B then (false, rest)
      else (false, s)
  | [] => (false, s)
  end.

Definition parseInt10 (s : jsstring) : spec_float :=
  let '(negative, unsigned) := strip_sign (trimStart s) in
  let digits := digits_prefix unsigned in
  if is_empty digits then S754_nan
  else
    let mathInt := Z.of_N (digits_value digits) in
    if (mathInt =? 0)%Z then S754_zero negative
    else binary_normalize 53 1024 (if negative then - mathInt else mathInt)%Z 0 false.

Definition isNaN (x : spec_float) : bool :=
  match x with S754_nan => true | _ => false end.

(** [CONFIG.navHeight] *)
Definition CONFIG_navHeight : nat := 70.

(** [getNavOffset()], from the computed value of [--nav-height]. *)
Definition getNavOffset (navHeightVar : jsstring) : spec_float :=
  if ToBoolean (VString navHeightVar) then
    let parsed := parseInt10 navHeightVar in
    if negb (isNaN parsed) then parsed
    else Number.of_nat CONFIG_navHeight
  else Number.of_nat CONFIG_navHeight.

(** *** [focusTarget] *)

(** The elements, the element on which [focus()] was called last, and the
    elements whose [tabindex] a timer is waiting to remove, oldest timer
    first. *)
Record state := { dom : document; focus : option node; timers : list node }.

Definition focusableElements : list jsstring :=
  [ js "A"; js "BUTTON"; js "INPUT"; js "TEXTAREA"; js "SELECT" ].

(** [focusTarget(element)] *)
Definition focusTarget (element : node) (st : state) : state :=
  let isFocusable :=
    bool_decide (tagName (dom st element) ∈ focusableElements)
    || hasAttribute element (js "tabindex") (dom st) in
  {| dom := if negb isFocusable
            then setAttribute element (js "tabindex") (js "-1") (dom st)
            else dom st;
     focus := Some element;
     timers := if negb isFocusable then timers st ++ [element] else timers st |}.

(** The oldest timer fires. *)
Definition timeout (st : state) : state :=
  match timers st with
  | [] => st
  | element :: timers' =>
      {| dom := removeAttribute element (js "tabindex") (dom st);
         focus := focus st;
         timers := timers' |}
  end.

Inductive event := FocusTarget (element : node) | TimerFires.

Definition handle (ev : event) (st : state) : state :=
  match ev with
  | FocusTarget element => focusTarget element st
  | TimerFires => timeout st
  end.

Definition run (evs : list event) (st : state) : state :=
  foldl (fun s ev => handle ev s) st evs.

(** Between two calls, an element either has the attributes it started
    with, or it started without [tabindex], carries [tabindex="-1"], and
    a timer is waiting to remove it. *)
Definition focus_invariant (d0 : document) (st : state) : Prop :=
  NoDup (timers st)
  ∧ ∀ n,
      (n ∉ timers st → attributes (dom st n) = attributes (d0 n))
      ∧ (n ∈ timers st →
         attributes (d0 n) !! js "tabindex" = None
         ∧ attributes (dom st n) = <[js "tabindex" := js "-1"]> (attributes (d0 n))).

End SmoothScroll.

(** ** Contact form controller *)

Module FormUI.
Import Dom.

(** What the lookups of the module find.  [form_inputs] are the
    [.form-input] elements of the form, in document order;
    [form_elements] is the named access [form.elements[name]], taken to
    give at most one control per name. *)
Record page := {
  getElementById : gmap jsstring node;
  form : node;
  form_inputs : list node;
  form_elements : gmap jsstring node
}.

(** The entries from which the body of the request is built. *)
Record request := {
  entry_form_name : jsstring;
  entry_name : jsstring;
  entry_email : jsstring;
  entry_message : jsstring
}.

(** The elements, the element on which [focus()] was called last, the
    validators' heap, and the requests passed to [fetch], latest first. *)
Record state := {
  dom : document;
  focus : option node;
  lastIndex : heap;
  requests : list request
}.

Definition with_dom (d : document) (st : state) : state :=
  {| dom := d; focus := focus st; lastIndex := lastIndex st; requests := requests st |}.

(** [showFieldError(input, message)] *)
Definition showFieldError (pg : page) (input : node) (message : jsvalue)
    (d : document) : document :=
  let errorElement := getElementById pg !! (name (d input) ++ js "-error") in
  let d := classList_add input (js "error") d in
  let d := setAttribute input (js "aria-invalid") (js "true") d in
  match errorElement with
  | Some errorElement =>
      classList_add errorElement (js "visible") (set_textContent errorElement message d)
  | None => d
  end.

(** [clearFieldError(input)] *)
Definition clearFieldError (pg : page) (input : node) (d : document) : document :=
  let errorElement := getElementById pg !! (name (d input) ++ js "-error") in
  let d := classList_remove input (js "error") d in
  let d := setAttribute input (js "aria-invalid") (js "false") d in
  match errorElement with
  | Some errorElement =>
      classList_remove errorElement (js "visible")
        (set_textContent errorElement (VString []) d)
  | None => d
  end.

(** [validationRules.message.maxLength] *)
Definition message_maxLength : nat := default 0%nat (Rule.maxLength rule_message).

(** [updateCharacterCounter(textarea)] *)
Definition updateCharacterCounter (pg : page) (textarea : node) (d : document) : document :=
  match getElementById pg !! js "message-counter" with
  | Some counter =>
      let currentLength := length (value (d textarea)) in
      let maxLength := message_maxLength in
      let d := set_textContent counter
                 (VString (Number.toString_nat currentLength ++ js "/"
                           ++ Number.toString_nat maxLength)) d in
      let d :=
        if Number.Z_gt (Z.of_nat currentLength)
             (Number.mul (Number.of_nat maxLength) Number.literal_0_9)
        then classList_add counter (js "warning") d
        else classList_remove counter (js "warning") d in
      if (maxLength <? currentLength)%nat
      then classList_add counter (js "error") d
      else classList_remove counter (js "error") d
  | None => d
  end.

(** [showSuccessMessage()] *)
Definition showSuccessMessage (pg : page) (st : state) : state :=
  let d :=
    match getElementById pg !! js "contact-form" with
    | Some form => set_display form (js "none") (dom st)
    | None => dom st
    end in
  match getElementById pg !! js "form-success" with
  | Some successMessage =>
      {| dom := set_hidden successMessage false d; focus := Some successMessage;
         lastIndex := lastIndex st; requests := requests st |}
  | None => with_dom d st
  end.

(** [showSubmissionError()] and [hideSubmissionError()] *)
Definition showSubmissionError (pg : page) (d : document) : document :=
  match getElementById pg !! js "form-error" with
  | Some errorMessage => set_hidden errorMessage false d
  | None => d
  end.

Definition hideSubmissionError (pg : page) (d : document) : document :=
  match getElementById pg !! js "form-error" with
  | Some errorMessage => set_hidden errorMessage true d
  | None => d
  end.

(** [setLoadingState(isLoading)] *)
Definition setLoadingState (pg : page) (isLoading : bool) (d : document) : document :=
  match getElementById pg !! js "contact-submit" with
  | Some submitButton =>
      if isLoading then
        setAttribute submitButton (js "aria-busy") (js "true")
          (set_disabled submitButton true
             (classList_add submitButton (js "loading") d))
      else
        setAttribute submitButton (js "aria-busy") (js "false")
          (set_disabled submitButton false
             (classList_remove submitButton (js "loading") d))
  | None => d
  end.

(** [handleFieldBlur(event)], for the element [event.target]. *)
Definition handleFieldBlur (pg : page) (input : node) (st : state) : state :=
  let fieldName := name (dom st input) in
  let value := VString (value (dom st input)) in
  let '(result, h) := validateField fieldName value (lastIndex st) in
  {| dom := if negb (Field.isValid result)
            then showFieldError pg input (Field.errorMessage result) (dom st)
            else clearFieldError pg input (dom st);
     focus := focus st; lastIndex := h; requests := requests st |}.

(** [handleFieldInput(event)], for the element [event.target]. *)
Definition handleFieldInput (pg : page) (input : node) (st : state) : state :=
  let fieldName := name (dom st input) in
  let d :=
    if JsString.eqb fieldName (js "message")
    then updateCharacterCounter pg input (dom st)
    else dom st in
  if classList_contains input (js "error") d then
    let '(result, h) := validateField fieldName (VString (value (d input))) (lastIndex st) in
    {| dom := if Field.isValid result then clearFieldError pg input d else d;
       focus := focus st; lastIndex := h; requests := requests st |}
  else with_dom d st.

(** The own keys of the [errors] object of a form result, in creation
    order: [validateForm] creates them in the order of the rule table. *)
Definition errors_keys (errors : gmap jsstring jsvalue) : list jsstring :=
  filter (fun fieldName => is_Some (errors !! fieldName)) (validationRules.*1).

(** The loop of [handleFormSubmit] over [validation.errors]. *)
Fixpoint show_errors (pg : page) (keys : list jsstring) (errors : gmap jsstring jsvalue)
    (d : document) (firstInvalidField : option node) : document * option node :=
  match keys with
  | [] => (d, firstInvalidField)
  | fieldName :: keys' =>
      match form_elements pg !! fieldName with
      | Some input =>
          show_errors pg keys' errors
            (showFieldError pg input (default VUndefined (errors !! fieldName)) d)
            (match firstInvalidField with
             | Some _ => firstInvalidField
             | None => Some input
             end)
      | None => show_errors pg keys' errors d firstInvalidField
      end
  end.

(** [submitForm(formData, form)], up to the call of [fetch]: the entries
    of the URL search parameters. *)
Definition submitForm (pg : page) (name email message : jsstring) (d : document) : request :=
  {| entry_form_name :=
       match getAttribute (form pg) (js "name") d with
       | Some formName => if JsString.is_empty formName then js "contact" else formName
       | None => js "contact"
       end;
     entry_name := name; entry_email := email; entry_message := message |}.

(** How [handleFormSubmit] goes on after its synchronous part. *)
Inductive submission :=
| Threw                       (* a control is missing: TypeError *)
| Invalid                     (* errors are shown, nothing is sent *)
| Sent (req : request).       (* the request was passed to [fetch] *)

(** [handleFormSubmit(event)] up to its [await]. *)
Definition handleFormSubmit (pg : page) (st : state) : state * submission :=
  match form_elements pg !! js "name", form_elements pg !! js "email",
        form_elements pg !! js "message" with
  | Some nameControl, Some emailControl, Some messageControl =>
      let name := value (dom st nameControl) in
      let email := value (dom st emailControl) in
      let message := value (dom st messageControl) in
      let formData : gmap jsstring jsvalue :=
        <[js "name" := VString name]>
          (<[js "email" := VString email]>
             (<[js "message" := VString message]> ∅)) in
      let d := hideSubmissionError pg (dom st) in
      let '(validation, h) := validateForm formData (lastIndex st) in
      let d := foldl (fun d input => clearFieldError pg input d) d (form_inputs pg) in
      if negb (Form.isValid validation) then
        let '(d, firstInvalidField) :=
          show_errors pg (errors_keys (Form.errors validation))
            (Form.errors validation) d None in
        ({| dom := d;
            focus := match firstInvalidField with
                     | Some input => Some input
                     | None => focus st
                     end;
            lastIndex := h; requests := requests st |}, Invalid)
      else
        let d := setLoadingState pg true d in
        let req := submitForm pg name email message d in
        ({| dom := d; focus := focus st; lastIndex := h;
            requests := req :: requests st |}, Sent req)
  | _, _, _ => (st, Threw)
  end.

(** How the promise returned by [fetch] settles. *)
Inductive fetched := Rejected | Resolved (ok : bool).

(** [handleFormSubmit(event)] after its [await]: the [try], [catch] and
    [finally] blocks. *)
Definition handleFormSubmit_settle (pg : page) (res : fetched) (st : state) : state :=
  let st :=
    match res with
    | Resolved true => showSuccessMessage pg st
    | _ => with_dom (showSubmissionError pg (dom st)) st
    end in
  with_dom (setLoadingState pg false (dom st)) st.

(** The form data that a request was built from. *)
Definition request_data (req : request) : gmap jsstring jsvalue :=
  <[js "name" := VString (entry_name req)]>
    (<[js "email" := VString (entry_email req)]>
       (<[js "message" := VString (entry_message req)]> ∅)).

(** The entries of a request satisfy the rules of the table. *)
Definition request_valid (req : request) : Prop :=
  (2 ≤ length (JsString.trim (entry_name req)) ≤ 100)%nat
  ∧ EmailShape.email_shape (JsString.trim (entry_email req)) = true
  ∧ (10 ≤ length (JsString.trim (entry_message req)) ≤ 1000)%nat.

Inductive event :=
| Blur (input : node)
| Input (input : node) (text : jsstring)   (* the user edits, then [input] fires *)
| Submit
| Settle (res : fetched).

(** The user's edit of a control: its [value] changes, and from then on
    it is a state of the control's own (an edited [textarea] no longer
    takes its value from its content). *)
Definition with_value (v : jsstring) (el : element) : element :=
  {| tagName := tagName el; name := name el; value := v; value_of_text := None;
     classList := classList el; attributes := attributes el;
     textContent := textContent el; hidden := hidden el;
     disabled := disabled el; display := display el |}.

Definition handle (pg : page) (ev : event) (st : state) : state :=
  match ev with
  | Blur input => handleFieldBlur pg input st
  | Input input text =>
      handleFieldInput pg input (with_dom (update input (with_value text) (dom st)) st)
  | Submit => fst (handleFormSubmit pg st)
  | Settle res => handleFormSubmit_settle pg res st
  end.

Definition run (pg : page) (evs : list event) (st : state) : state :=
  foldl (fun s ev => handle pg ev s) st evs.

(** A page with the three controls at nodes 1, 2, 3, their error elements
    at 11, 12, 13, the counter at 20, the submit button at 30, the form at
    0 and the two banners at 40 and 41; and its elements before any
    input. *)
Definition sample_page : page :=
  {| getElementById :=
       list_to_map
         [ (js "contact-form", 0%nat); (js "name-error", 11%nat);
           (js "email-error", 12%nat); (js "message-error", 13%nat);
           (js "message-counter", 20%nat); (js "contact-submit", 30%nat);
           (js "form-success", 40%nat); (js "form-error", 41%nat) ];
     form := 0%nat;
     form_inputs := [1; 2; 3]%nat;
     form_elements :=
       list_to_map [ (js "name", 1%nat); (js "email", 2%nat); (js "message", 3%nat) ] |}.

Definition with_name (s : jsstring) (el : element) : element :=
  {| tagName := tagName el; name := s; value := value el;
     value_of_text := value_of_text el;
     classList := classList el; attributes := attributes el;
     textContent := textContent el; hidden := hidden el;
     disabled := disabled el; display := display el |}.

Definition sample_state : state :=
  {| dom := update 1%nat (with_name (js "name"))
              (update 2%nat (with_name (js "email"))
                 (update 3%nat (with_name (js "message"))
                    (fun _ => plain (js "INPUT"))));
     focus := None; lastIndex := initial_heap; requests := [] |}.

End FormUI.

(** * Properties *)

(** ** Trimming *)

Section Trim.
Import JsString.
Implicit Types (s p q v : jsstring) (c : code_unit).

Lemma all_whitespace_app p q :
  all_whitespace (p ++ q) = all_whitespace p && all_whitespace q.
Proof. apply forallb_app. Qed.

Lemma all_whitespace_rev s : all_whitespace (rev s) = all_whitespace s.
Proof.
  induction s as [|c s IH]; [done|]. simpl.
  rewrite all_whitespace_app, IH. simpl.
  destruct (is_whitespace c), (all_whitespace s); done.
Qed.

Lemma trimStart_app s q :
  trimStart (s ++ q) = if all_whitespace s then trimStart q else trimStart s ++ q.
Proof.
  induction s as [|c s IH]; [done|]. simpl.
  destruct (is_whitespace c); [exact IH | done].
Qed.

Lemma trimStart_nil_iff s : trimStart s = [] ↔ all_whitespace s = true.
Proof.
  induction s as [|c s IH]; [done|]. simpl.
  destruct (is_whitespace c); [exact IH | done].
Qed.

Lemma trimStart_head s :
  trimStart s = [] ∨ ∃ c s', trimStart s = c :: s' ∧ is_whitespace c = false.
Proof.
  induction s as [|c s IH]; [by left|]. simpl.
  destruct (is_whitespace c) eqn:E; [exact IH | right; eauto].
Qed.

Lemma trimStart_idem s : trimStart (trimStart s) = trimStart s.
Proof.
  destruct (trimStart_head s) as [-> | (c & s' & -> & E)]; [done|].
  simpl. by rewrite E.
Qed.

Lemma trimStart_prefix s : ∃ p, s = p ++ trimStart s ∧ all_whitespace p = true.
Proof.
  induction s as [|c s (p & E & Hp)]; [by exists []|]. simpl.
  destruct (is_whitespace c) eqn:Hc; [|by exists []].
  exists (c :: p). simpl. rewrite Hc, Hp. by rewrite E at 1.
Qed.

Lemma trimEnd_nil : trimEnd [] = [].
Proof. done. Qed.

Lemma trimEnd_app p s :
  trimEnd (p ++ s) = if all_whitespace s then trimEnd p else p ++ trimEnd s.
Proof.
  unfold trimEnd. rewrite rev_app_distr, trimStart_app, all_whitespace_rev.
  destruct (all_whitespace s); [done|]. by rewrite rev_app_distr, rev_involutive.
Qed.

Lemma trimEnd_nil_iff s : trimEnd s = [] ↔ all_whitespace s = true.
Proof.
  unfold trimEnd. rewrite <- all_whitespace_rev, <- trimStart_nil_iff.
  split; [|by intros ->]. intros E. apply (f_equal (@rev _)) in E.
  by rewrite rev_involutive in E.
Qed.

Lemma trimEnd_idem s : trimEnd (trimEnd s) = trimEnd s.
Proof. unfold trimEnd. by rewrite rev_involutive, trimStart_idem. Qed.

Lemma trimEnd_suffix s : ∃ q, s = trimEnd s ++ q ∧ all_whitespace q = true.
Proof.
  destruct (trimStart_prefix (rev s)) as (p & E & Hp).
  exists (rev p). rewrite all_whitespace_rev. split; [|done].
  unfold trimEnd. rewrite <- rev_app_distr, <- E. by rewrite rev_involutive.
Qed.

(** Trimming the end keeps a first code unit that is not white space. *)
Lemma trimEnd_cons_keep c s :
  is_whitespace c = false → ∃ s', trimEnd (c :: s) = c :: s'.
Proof.
  intros Hc. change (c :: s) with ([c] ++ s). rewrite trimEnd_app.
  destruct (all_whitespace s); [|by eexists].
  exists []. unfold trimEnd. simpl. by rewrite Hc.
Qed.

Lemma trimStart_trimEnd_trimStart s :
  trimStart (trimEnd (trimStart s)) = trimEnd (trimStart s).
Proof.
  destruct (trimStart_head s) as [-> | (c & s' & -> & Hc)]; [done|].
  destruct (trimEnd_cons_keep c s' Hc) as [t ->]. simpl. by rewrite Hc.
Qed.

Lemma trim_idem s : trim (trim s) = trim s.
Proof. unfold trim. by rewrite trimStart_trimEnd_trimStart, trimEnd_idem. Qed.

Lemma trim_nil_iff s : trim s = [] ↔ all_whitespace s = true.
Proof.
  unfold trim. rewrite trimEnd_nil_iff, <- (trimStart_nil_iff (trimStart s)).
  by rewrite trimStart_idem, trimStart_nil_iff.
Qed.

Lemma is_empty_true s : is_empty s = true ↔ s = [].
Proof. by destruct s. Qed.

Lemma is_empty_trim s : is_empty (trim s) = all_whitespace s.
Proof.
  apply eq_true_iff_eq. by rewrite is_empty_true, trim_nil_iff.
Qed.

(** White space around a string does not survive trimming. *)
Lemma trim_pad p v q :
  all_whitespace p = true → all_whitespace q = true →
  trim (p ++ v ++ q) = trim v.
Proof.
  intros Hp Hq. unfold trim.
  rewrite trimStart_app, Hp, trimStart_app.
  destruct (all_whitespace v) eqn:Hv.
  - apply trimStart_nil_iff in Hq, Hv. by rewrite Hq, Hv.
  - by rewrite trimEnd_app, Hq.
Qed.

(** [trim s] is [s] without a white-space prefix and a white-space
    suffix, and it neither starts nor ends with white space. *)
Lemma trim_spec s :
  ∃ p q, s = p ++ trim s ++ q
         ∧ all_whitespace p = true ∧ all_whitespace q = true
         ∧ trimStart (trim s) = trim s ∧ trimEnd (trim s) = trim s.
Proof.
  destruct (trimStart_prefix s) as (p & Ep & Hp).
  destruct (trimEnd_suffix (trimStart s)) as (q & Eq & Hq).
  exists p, q. unfold trim. rewrite <- Eq, <- Ep.
  by rewrite trimStart_trimEnd_trimStart, trimEnd_idem.
Qed.

(** Literals and trimmed strings are sequences of 16-bit code units. *)
Lemma lit_well_formed (a : string) : well_formed (lit a).
Proof.
  induction a as [|c a IH]; [by constructor|]. constructor; [|done].
  pose proof (N_ascii_bounded c). lia.
Qed.

Lemma trimStart_well_formed s : well_formed s → well_formed (trimStart s).
Proof.
  destruct (trimStart_prefix s) as (p & E & _). intros H.
  rewrite E in H. by apply Forall_app in H as [_ ?].
Qed.

Lemma trim_well_formed s : well_formed s → well_formed (trim s).
Proof.
  intros H%trimStart_well_formed. unfold trim.
  destruct (trimEnd_suffix (trimStart s)) as (q & E & _).
  rewrite E in H. by apply Forall_app in H as [? _].
Qed.

End Trim.

(** ** The backtracking matcher *)

Section Matcher.
Import JsString RegExp.
Implicit Types (x y : MatchState) (c : Continuation) (s l : jsstring).

Lemma CharacterSetMatcher_Some A invert x c :
  is_Some (CharacterSetMatcher A invert x c) ↔
  ∃ ch post, rest x = ch :: post ∧ xorb (A ch) invert = true
             ∧ is_Some (c {| endIndex := S (endIndex x); rest := post |}).
Proof.
  unfold CharacterSetMatcher. destruct (rest x) as [|ch r].
  - split; [by intros [? ?] | by intros (? & ? & ? & _)].
  - destruct (xorb (A ch) invert) eqn:E.
    + split; [by exists ch, r | by intros (? & ? & [= <- <-] & _ & H)].
    + split; [by intros [? ?] | intros (? & ? & [= <- <-] & H & _); congruence].
Qed.

Lemma is_Some_orelse {T} (o1 o2 : option T) :
  is_Some (match o1 with Some z => Some z | None => o2 end)
  ↔ is_Some o1 ∨ is_Some o2.
Proof.
  destruct o1; [by split; eauto|].
  split; [by right | intros [[? ?]|?]; done].
Qed.

Lemma succ_eqb (n : nat) : (S n =? n)%nat = false.
Proof. apply Nat.eqb_neq. lia. Qed.

(** A greedy repetition of a one-character matcher succeeds exactly when
    some prefix of at least [min] accepted code units can be consumed so
    that the continuation succeeds on what follows. *)
Lemma RepeatMatcher_Some A invert fuel min x c :
  (min + length (rest x) < fuel)%nat →
  is_Some (RepeatMatcher fuel (CharacterSetMatcher A invert) min x c) ↔
  ∃ pre post, rest x = pre ++ post ∧ (min ≤ length pre)%nat
              ∧ forallb (fun ch => xorb (A ch) invert) pre = true
              ∧ is_Some (c {| endIndex := endIndex x + length pre; rest := post |}).
Proof.
  revert min x. induction fuel as [|fuel IH]; intros min x Hf; [lia|].
  simpl. destruct min as [|min]; simpl.
  - rewrite is_Some_orelse, CharacterSetMatcher_Some. cbn [endIndex rest]. split.
    + intros [(ch & post & Ex & Hch & H) | H].
      * rewrite succ_eqb in H.
        apply IH in H; [|simpl; rewrite Ex in Hf; simpl in Hf; lia].
        destruct H as (pre & post' & Ep & _ & Hpre & H). cbn in Ep, H. subst post.
        exists (ch :: pre), post'. simpl. rewrite Hch, Hpre, Nat.add_succ_r.
        repeat split; (done || lia).
      * exists [], (rest x). simpl. rewrite Nat.add_0_r.
        destruct x; repeat split; (done || lia).
    + intros (pre & post & Ex & _ & Hpre & H). destruct pre as [|ch pre].
      * right. simpl in *. rewrite Nat.add_0_r in H. destruct x; simpl in *.
        by subst.
      * left. simpl in Hpre. apply andb_true_iff in Hpre as [Hch Hpre].
        exists ch, (pre ++ post). repeat split; [done..|].
        rewrite succ_eqb.
        apply IH; [simpl; rewrite Ex in Hf; simpl in Hf; lia|].
        exists pre, post. simpl in *. rewrite Nat.add_succ_r in H.
        repeat split; (done || lia).
  - rewrite CharacterSetMatcher_Some. split.
    + intros (ch & post & Ex & Hch & H).
      apply IH in H; [|simpl; rewrite Ex in Hf; simpl in Hf; lia].
      destruct H as (pre & post' & Ep & Hmin & Hpre & H). cbn in Ep, H. subst post.
      exists (ch :: pre), post'. simpl. rewrite Hch, Hpre, Nat.add_succ_r.
      repeat split; (done || lia).
    + intros (pre & post & Ex & Hmin & Hpre & H). destruct pre as [|ch pre];
        [simpl in Hmin; lia|].
      simpl in Hpre. apply andb_true_iff in Hpre as [Hch Hpre].
      exists ch, (pre ++ post). repeat split; [done..|].
      apply IH; [simpl; rewrite Ex in Hf; simpl in Hf; lia|].
      exists pre, post. simpl in *. rewrite Nat.add_succ_r in H.
      repeat split; (done || lia).
Qed.

Lemma compile_Seq r1 r2 x c :
  compile (Seq r1 r2) x c = compile r1 x (fun y => compile r2 y c).
Proof. done. Qed.

Lemma compile_AssertStart_Some x c :
  is_Some (compile AssertStart x c) ↔ endIndex x = 0%nat ∧ is_Some (c x).
Proof.
  simpl. destruct (Nat.eqb_spec (endIndex x) 0) as [E|E].
  - by split; [|intros [_ ?]].
  - split; [by intros [? ?] | by intros [? _]].
Qed.

Lemma compile_AssertEnd_Some x c :
  is_Some (compile AssertEnd x c) ↔ rest x = [] ∧ is_Some (c x).
Proof.
  simpl. destruct (rest x).
  - by split; [|intros [_ ?]].
  - split; [by intros [? ?] | by intros [? _]].
Qed.

Lemma compile_PatternChar_Some ch x c :
  is_Some (compile (PatternChar ch) x c) ↔
  ∃ post, rest x = ch :: post
          ∧ is_Some (c {| endIndex := S (endIndex x); rest := post |}).
Proof.
  simpl. rewrite CharacterSetMatcher_Some. split.
  - intros (ch' & post & E & Hch & H). rewrite xorb_false_r in Hch.
    apply N.eqb_eq in Hch as ->. eauto.
  - intros (post & E & H). exists ch, post.
    by rewrite xorb_false_r, N.eqb_refl.
Qed.

Lemma compile_Plus_CharClass_Some invert atoms x c :
  is_Some (compile (Plus (CharClass invert atoms)) x c) ↔
  ∃ pre post, rest x = pre ++ post ∧ pre ≠ []
              ∧ forallb (fun ch => xorb (class_contains atoms ch) invert) pre = true
              ∧ is_Some (c {| endIndex := endIndex x + length pre; rest := post |}).
Proof.
  cbn [compile]. rewrite RepeatMatcher_Some by lia.
  split; intros (pre & post & E & Hne & H); exists pre, post;
    (split; [done|split; [|done]]).
  - by destruct pre; [simpl in Hne; lia|].
  - destruct pre; [done|simpl; lia].
Qed.

End Matcher.

(** ** The e-mail pattern *)

Section EmailPattern.
Import JsString RegExp EmailShape.
Implicit Types (x y : MatchState) (s l d : jsstring) (c : code_unit).

Lemma not_space_or_at_contains c :
  xorb (class_contains [ClassWhiteSpace; ClassChar 0x40] c) true = email_char c.
Proof.
  unfold class_contains, email_char, AT. simpl.
  rewrite orb_false_r, xorb_true_r. apply negb_orb.
Qed.

Lemma compile_Plus_not_space_or_at_Some x k :
  is_Some (compile (Plus not_space_or_at) x k) ↔
  ∃ pre post, rest x = pre ++ post ∧ pre ≠ []
              ∧ forallb email_char pre = true
              ∧ is_Some (k {| endIndex := endIndex x + length pre; rest := post |}).
Proof.
  unfold not_space_or_at. rewrite compile_Plus_CharClass_Some.
  assert (E : ∀ pre,
    forallb (λ ch, xorb (class_contains [ClassWhiteSpace; ClassChar 0x40] ch) true) pre
    = forallb email_char pre).
  { induction pre as [|c pre IH]; [done|]. cbn [forallb].
    by rewrite IH, not_space_or_at_contains. }
  split; intros (pre & post & Ex & Hne & F & H); exists pre, post;
    repeat split; try done; [by rewrite <- E | by rewrite E].
Qed.

(** The matcher of the pattern succeeds from a state exactly when the
    state is at index 0 and the whole remaining input splits. *)
Lemma email_matcher_Some x :
  is_Some (compile email_regex x (λ y, Some y)) ↔
  endIndex x = 0%nat ∧ ∃ l d1 d2, splits (rest x) l d1 d2.
Proof.
  unfold email_regex. rewrite !compile_Seq. split.
  - intros H.
    apply compile_AssertStart_Some in H as [H0 H].
    apply compile_Plus_not_space_or_at_Some in H as (l & r1 & E1 & Hl & Fl & H).
    apply compile_PatternChar_Some in H as (r2 & E2 & H).
    apply compile_Plus_not_space_or_at_Some in H as (d1 & r3 & E3 & Hd1 & Fd1 & H).
    apply compile_PatternChar_Some in H as (r4 & E4 & H).
    apply compile_Plus_not_space_or_at_Some in H as (d2 & r5 & E5 & Hd2 & Fd2 & H).
    apply compile_AssertEnd_Some in H as [E6 _].
    cbn [rest endIndex] in *. subst r5. rewrite app_nil_r in E5. subst.
    split; [done|]. exists l, d1, d2. by repeat split.
  - intros [H0 (l & d1 & d2 & E & Hl & Hd1 & Hd2 & Fl & Fd1 & Fd2)].
    apply compile_AssertStart_Some. split; [done|].
    apply compile_Plus_not_space_or_at_Some.
    exists l, (AT :: d1 ++ DOT :: d2). repeat split; [done..|].
    apply compile_PatternChar_Some. eexists. split; [done|].
    apply compile_Plus_not_space_or_at_Some.
    exists d1, (DOT :: d2). repeat split; [done..|].
    apply compile_PatternChar_Some. eexists. split; [done|].
    apply compile_Plus_not_space_or_at_Some.
    exists d2, []. cbn [rest]. rewrite app_nil_r. repeat split; [done..|].
    apply compile_AssertEnd_Some. by split.
Qed.

Lemma email_matcher_later i s :
  compile email_regex {| endIndex := S i; rest := s |} (λ y, Some y) = None.
Proof.
  apply eq_None_not_Some. intros H.
  by apply email_matcher_Some in H as [? _].
Qed.

Lemma search_email_later i s :
  search (compile email_regex) false (S i) s = None.
Proof.
  revert i. induction s as [|c s IH]; intros i; cbn [search];
    rewrite email_matcher_later; [done | apply IH].
Qed.

Lemma search_email_Some s :
  is_Some (search (compile email_regex) false 0 s) ↔ ∃ l d1 d2, splits s l d1 d2.
Proof.
  transitivity (is_Some (compile email_regex {| endIndex := 0; rest := s |} (λ y, Some y))).
  - destruct s as [|c s]; cbn [search];
      destruct (compile email_regex _ _) eqn:E; try done.
    by rewrite search_email_later.
  - rewrite email_matcher_Some. cbn [endIndex rest]. split; [by intros [_ ?] | by split].
Qed.

Lemma accepts_email_regex s :
  accepts email_regex s = true ↔ ∃ l d1 d2, splits s l d1 d2.
Proof. unfold accepts. by rewrite bool_decide_eq_true, search_email_Some. Qed.


(** *** The same shape, from the words of the description *)

Lemma count_app sep a b :
  count sep (a ++ b) = (count sep a + count sep b)%nat.
Proof.
  induction a as [|c a IH]; [done|]. simpl.
  destruct (c =? sep); simpl; by rewrite IH.
Qed.

Lemma count_zero_iff sep s :
  count sep s = 0%nat ↔ forallb (λ c, negb (c =? sep)) s = true.
Proof.
  induction s as [|c s IH]; [done|]. simpl.
  destruct (c =? sep); simpl; [done | exact IH].
Qed.

Lemma before_no_sep sep s :
  forallb (λ c, negb (c =? sep)) (before sep s) = true.
Proof.
  induction s as [|c s IH]; [done|]. simpl.
  destruct (c =? sep) eqn:E; [done|]. simpl. by rewrite E.
Qed.

Lemma before_sep_after sep s :
  count sep s ≠ 0%nat →
  s = before sep s ++ sep :: after sep s
  ∧ count sep s = S (count sep (after sep s)).
Proof.
  induction s as [|c s IH]; [done|]. simpl.
  destruct (N.eqb_spec c sep) as [->|Hc]; [done|].
  intros H. destruct (IH H) as [E1 E2]. split; [|done].
  simpl. by rewrite <- E1.
Qed.

Lemma before_app_sep sep l r :
  forallb (λ c, negb (c =? sep)) l = true → before sep (l ++ sep :: r) = l.
Proof.
  induction l as [|c l IH]; simpl; [by rewrite N.eqb_refl|].
  destruct (c =? sep); [done|]. simpl. intros H. by rewrite IH.
Qed.

Lemma after_app_sep sep l r :
  forallb (λ c, negb (c =? sep)) l = true → after sep (l ++ sep :: r) = r.
Proof.
  induction l as [|c l IH]; simpl; [by rewrite N.eqb_refl|].
  destruct (c =? sep); [done|]. simpl. exact IH.
Qed.

Lemma dot_then_text_iff d :
  dot_then_text d = true ↔ ∃ a b, d = a ++ DOT :: b ∧ b ≠ [].
Proof.
  induction d as [|c d IH]; simpl.
  - split; [done | intros (a & b & E & _); by destruct a].
  - rewrite orb_true_iff, andb_true_iff, negb_true_iff, N.eqb_eq, IH. split.
    + intros [[-> Hd] | (a & b & -> & Hb)].
      * exists [], d. split; [done|]. by destruct d.
      * by exists (c :: a), b.
    + intros (a & b & E & Hb). destruct a as [|c' a]; simplify_eq/=.
      * left. split; [done|]. by destruct b.
      * right. eauto.
Qed.

Lemma has_inner_dot_iff d :
  has_inner_dot d = true ↔ ∃ a b, d = a ++ DOT :: b ∧ a ≠ [] ∧ b ≠ [].
Proof.
  destruct d as [|c d]; simpl.
  - split; [done | intros (a & b & E & _); by destruct a].
  - rewrite dot_then_text_iff. split.
    + intros (a & b & -> & Hb). by exists (c :: a), b.
    + intros (a & b & E & Ha & Hb). destruct a as [|c' a]; [done|].
      simplify_eq/=. eauto.
Qed.

Lemma forallb_email_char s :
  forallb email_char s
  = no_whitespace s && forallb (λ c, negb (c =? AT)) s.
Proof.
  induction s as [|c s IH]; [done|]. unfold no_whitespace in *. simpl.
  rewrite IH. unfold email_char.
  destruct (is_whitespace c), (c =? AT),
    (forallb (λ c0, negb (is_whitespace c0)) s), (forallb _ s); done.
Qed.

Lemma no_whitespace_app a b :
  no_whitespace (a ++ b) = no_whitespace a && no_whitespace b.
Proof. apply forallb_app. Qed.

Lemma email_shape_splits s :
  email_shape s = true ↔ ∃ l d1 d2, splits s l d1 d2.
Proof.
  unfold email_shape, local_part, domain_part.
  rewrite !andb_true_iff, negb_true_iff, Nat.eqb_eq, has_inner_dot_iff. split.
  - intros [[[Hcount Hlocal] (d1 & d2 & Ed & Hd1 & Hd2)] Hws].
    destruct (before_sep_after AT s) as [Es Ec]; [lia|].
    assert (Hafter : count AT (after AT s) = 0%nat) by lia.
    rewrite Ed in Es, Hafter. rewrite Es in Hws.
    rewrite count_app in Hafter. simpl in Hafter.
    assert (count AT d1 = 0%nat ∧ count AT d2 = 0%nat) as [H1 H2] by lia.
    apply count_zero_iff in H1, H2.
    rewrite no_whitespace_app in Hws. simpl in Hws.
    rewrite no_whitespace_app in Hws. simpl in Hws.
    apply andb_true_iff in Hws as [Wl Hws].
    apply andb_true_iff in Hws as [Wd1 Wd2].
    exists (before AT s), d1, d2. unfold splits.
    rewrite !forallb_email_char, before_no_sep, Wl, Wd1, Wd2, H1, H2.
    repeat split; try done. intros E. by rewrite E in Hlocal.
  - intros (l & d1 & d2 & -> & Hl & Hd1 & Hd2 & Fl & Fd1 & Fd2).
    rewrite forallb_email_char in Fl, Fd1, Fd2.
    apply andb_true_iff in Fl as [Wl Al], Fd1 as [Wd1 Ad1], Fd2 as [Wd2 Ad2].
    rewrite before_app_sep, after_app_sep by done.
    rewrite count_app. simpl. rewrite count_app. simpl.
    apply count_zero_iff in Al, Ad1, Ad2. rewrite Al, Ad1, Ad2.
    rewrite no_whitespace_app. simpl. rewrite no_whitespace_app. simpl.
    rewrite Wl, Wd1, Wd2.
    repeat split; try done; [by destruct l | by exists d1, d2].
Qed.

Lemma accepts_email_shape s : accepts email_regex s = email_shape s.
Proof.
  apply eq_true_iff_eq. by rewrite accepts_email_regex, email_shape_splits.
Qed.

End EmailPattern.

(** ** Running the validators *)

Section Run.
Import JsString RegExp.
Implicit Types (s t f : jsstring) (v : jsvalue) (h : heap).

(** Without the [g] and [y] flags, [test] neither reads nor writes
    [lastIndex]. *)
Lemma test_email_pattern s h :
  RegExpObject.test email_pattern s h = (accepts email_regex s, h).
Proof.
  unfold RegExpObject.test, RegExpObject.RegExpBuiltinExec, accepts, get_lastIndex.
  unfold_monad. cbn. by destruct (search _ _ _ _).
Qed.

Lemma validateEmail_string s h :
  validateEmail (VString s) h
  = (negb (is_empty (trim s)) && accepts email_regex (trim s), h).
Proof.
  unfold validateEmail. cbv zeta.
  destruct (is_empty (trim s)); [done|]. apply test_email_pattern.
Qed.

Lemma typeof_string v : typeof v = js "string" ↔ ∃ s, v = VString s.
Proof.
  split; [|by intros [s ->]].
  destruct v as [| | | | | |s|[] ?]; try done. eauto.
Qed.

Lemma validateEmail_not_string v h :
  typeof v ≠ js "string" → validateEmail v h = (false, h).
Proof. destruct v; done. Qed.

Lemma trim_trimmed v : trim (trimmed v) = trimmed v.
Proof. destruct v; try done. apply trim_idem. Qed.

(** The verdict of [validateEmail] on a value. *)
Lemma validateEmail_run v h :
  validateEmail v h
  = (negb (is_empty (trimmed v)) && accepts email_regex (trimmed v), h).
Proof. destruct v; try done. apply validateEmail_string. Qed.

Lemma eqb_refl s : eqb s s = true.
Proof. by apply bool_decide_eq_true. Qed.

Lemma eqb_true s t : eqb s t = true ↔ s = t.
Proof. apply bool_decide_eq_true. Qed.

Lemma eqb_false s t : eqb s t = false ↔ s ≠ t.
Proof. apply bool_decide_eq_false. Qed.

Lemma validateField_name v h :
  validateField (js "name") v h
  = (if (2 <=? length (trimmed v))%nat && (length (trimmed v) <=? 100)%nat
     then Field.pass else Field.fail rule_name, h).
Proof.
  unfold validateField. change (validationRules_get (js "name")) with (Some rule_name).
  cbv zeta. generalize (trimmed v). intros t.
  replace (eqb (js "name") (js "email")) with false by (symmetry; by apply eqb_false).
  unfold_monad. cbn [Rule.is_required Rule.required rule_name default from_option id Rule.bound_violated
    Rule.minLength Rule.maxLength negb andb Nat.eqb].
  destruct t as [|c t]; [done|]. cbn [is_empty andb].
  destruct (Nat.ltb_spec (length (c :: t)) 2), (Nat.ltb_spec 100 (length (c :: t))),
    (Nat.leb_spec 2 (length (c :: t))), (Nat.leb_spec (length (c :: t)) 100);
    (done || lia).
Qed.

Lemma validateField_message v h :
  validateField (js "message") v h
  = (if (10 <=? length (trimmed v))%nat && (length (trimmed v) <=? 1000)%nat
     then Field.pass else Field.fail rule_message, h).
Proof.
  unfold validateField.
  change (validationRules_get (js "message")) with (Some rule_message).
  cbv zeta. generalize (trimmed v). intros t.
  replace (eqb (js "message") (js "email")) with false by (symmetry; by apply eqb_false).
  unfold_monad. cbn [Rule.is_required Rule.required rule_message default from_option id Rule.bound_violated
    Rule.minLength Rule.maxLength negb andb Nat.eqb].
  destruct t as [|c t]; [done|]. cbn [is_empty andb].
  destruct (Nat.ltb_spec (length (c :: t)) 10), (Nat.ltb_spec 1000 (length (c :: t))),
    (Nat.leb_spec 10 (length (c :: t))), (Nat.leb_spec (length (c :: t)) 1000);
    (done || lia).
Qed.

Lemma validateField_email v h :
  validateField (js "email") v h
  = (if negb (is_empty (trimmed v)) && accepts email_regex (trimmed v)
     then Field.pass else Field.fail rule_email, h).
Proof.
  unfold validateField.
  change (validationRules_get (js "email")) with (Some rule_email).
  cbv zeta. rewrite eqb_refl.
  cbn [Rule.is_required Rule.required rule_email default from_option id Rule.bound_violated
    Rule.minLength Rule.maxLength negb andb].
  destruct (is_empty (trimmed v)) eqn:E; [done|]. unfold_monad. cbn [negb andb].
  cbv beta.
  rewrite validateEmail_string, trim_trimmed, E.
  by destruct (accepts email_regex (trimmed v)).
Qed.


Lemma own_property_validationRules f :
  own_property f validationRules
  = if bool_decide (f = js "name") then Some rule_name
    else if bool_decide (f = js "email") then Some rule_email
    else if bool_decide (f = js "message") then Some rule_message
    else None.
Proof.
  unfold validationRules, own_property, eqb.
  repeat case_bool_decide; congruence.
Qed.

Lemma not_rule_key f :
  f ∉ validationRules.*1 ↔ f ≠ js "name" ∧ f ≠ js "email" ∧ f ≠ js "message".
Proof.
  change (validationRules.*1) with [js "name"; js "email"; js "message"].
  rewrite !not_elem_of_cons. split; [by intros (? & ? & ? & _)|].
  intros (? & ? & ?). repeat split; try done. apply not_elem_of_nil.
Qed.

(** A name outside the table reads as [undefined] or as a member
    inherited from [Object.prototype]. *)
Lemma validationRules_get_other f :
  f ∉ validationRules.*1 →
  validationRules_get f = None ∨ validationRules_get f = Some inherited_member.
Proof.
  intros (Hn & He & Hm)%not_rule_key. unfold validationRules_get.
  rewrite own_property_validationRules.
  rewrite !bool_decide_eq_false_2 by done.
  case_bool_decide; eauto.
Qed.

Lemma validateField_other f v h :
  f ∉ validationRules.*1 → validateField f v h = (Field.pass, h).
Proof.
  intros Hf. unfold validateField.
  destruct (validationRules_get_other f Hf) as [-> | ->]; [done|].
  apply not_rule_key in Hf as (_ & He & _). apply eqb_false in He. rewrite He.
  cbv zeta. unfold_monad.
  cbn [Rule.is_required Rule.required inherited_member default from_option id
    Rule.bound_violated Rule.minLength Rule.maxLength negb andb].
  by destruct (is_empty (trimmed v)).
Qed.

(** [validateField] leaves the heap as it found it. *)
Lemma validateField_run f v h :
  validateField f v h = (eval (validateField f v) h, h).
Proof.
  unfold eval.
  destruct (decide (f = js "name")) as [->|Hn]; [by rewrite validateField_name|].
  destruct (decide (f = js "email")) as [->|He]; [by rewrite validateField_email|].
  destruct (decide (f = js "message")) as [->|Hm]; [by rewrite validateField_message|].
  rewrite validateField_other; [done|]. by apply not_rule_key.
Qed.

(** Its result does not depend on the heap. *)
Lemma validateField_heap f v h h' :
  eval (validateField f v) h = eval (validateField f v) h'.
Proof.
  unfold eval.
  destruct (decide (f = js "name")) as [->|Hn]; [by rewrite !validateField_name|].
  destruct (decide (f = js "email")) as [->|He]; [by rewrite !validateField_email|].
  destruct (decide (f = js "message")) as [->|Hm]; [by rewrite !validateField_message|].
  rewrite !validateField_other; [done|by apply not_rule_key..].
Qed.

(** It looks at its argument through [trimmed] only. *)
Lemma validateField_trimmed f v v' h :
  trimmed v = trimmed v' → validateField f v h = validateField f v' h.
Proof. intros E. unfold validateField. by rewrite E. Qed.

Lemma trimmed_js_or v : trimmed (js_or v (VString [])) = trimmed v.
Proof.
  unfold js_or. destruct (ToBoolean v) eqn:E; [done|].
  destruct v as [| | | | | |s|]; try done.
  destruct s; [done | discriminate E].
Qed.

Lemma trimmed_field_value (formData : gmap jsstring jsvalue) f :
  trimmed (field_value formData f) = trimmed (default (VString []) (formData !! f)).
Proof.
  unfold field_value, formData_get. rewrite trimmed_js_or.
  by destruct (formData !! f).
Qed.

End Run.

(** ** The form loop *)

Section FormLoop.
Import JsString.
Implicit Types (f : jsstring) (keys : list jsstring) (h : heap).
Implicit Types (formData errs : gmap jsstring jsvalue).

Lemma validateField_field_value formData f h :
  validateField f (field_value formData f) h
  = validateField f (submitted formData f) h.
Proof. apply validateField_trimmed, trimmed_field_value. Qed.

(** The loop records one entry per failing key and leaves the heap as it
    found it. *)
Lemma validateForm_loop_run keys formData ok errs h :
  validateForm_loop keys formData ok errs h
  = ({| Form.isValid :=
          ok && forallb (λ f, Field.isValid (eval (validateField f (submitted formData f)) h)) keys;
        Form.errors :=
          foldl (λ e f,
                   let r := eval (validateField f (submitted formData f)) h in
                   if Field.isValid r then e else <[f := Field.errorMessage r]> e)
                errs keys |}, h).
Proof.
  revert ok errs. induction keys as [|f keys IH]; intros ok errs.
  - cbn. by rewrite andb_true_r.
  - cbn [validateForm_loop forallb foldl]. unfold_monad.
    rewrite validateField_field_value, validateField_run.
    destruct (Field.isValid (eval (validateField f (submitted formData f)) h)) eqn:E;
      cbn [negb]; rewrite IH; cbn [andb]; [done|].
    by rewrite andb_false_r.
Qed.

Lemma foldl_errors_lookup formData h keys errs f :
  foldl (λ e f,
           let r := eval (validateField f (submitted formData f)) h in
           if Field.isValid r then e else <[f := Field.errorMessage r]> e)
        errs keys !! f
  = if bool_decide (f ∈ keys)
       && negb (Field.isValid (eval (validateField f (submitted formData f)) h))
    then Some (Field.errorMessage (eval (validateField f (submitted formData f)) h))
    else errs !! f.
Proof.
  revert errs. induction keys as [|k keys IH]; intros errs; [done|].
  cbn [foldl]. rewrite IH. cbn zeta.
  destruct (decide (f = k)) as [->|Hne].
  - rewrite (bool_decide_eq_true_2 (k ∈ k :: keys)) by apply list_elem_of_here.
    destruct (Field.isValid (eval (validateField k (submitted formData k)) h)) eqn:E;
      cbn [negb andb]; rewrite ?andb_false_r; [done|].
    rewrite lookup_insert_eq. by destruct (bool_decide _).
  - assert (Hb : bool_decide (f ∈ k :: keys) = bool_decide (f ∈ keys)).
    { apply bool_decide_ext. rewrite elem_of_cons. split; [by intros [?|?] | by right]. }
    rewrite Hb.
    destruct (bool_decide (f ∈ keys) && negb _); [done|].
    destruct (Field.isValid (eval (validateField k (submitted formData k)) h));
      [done|]. by rewrite lookup_insert_ne.
Qed.

Lemma validateForm_run formData h :
  validateForm formData h = (eval (validateForm formData) h, h).
Proof. unfold eval, validateForm. by rewrite validateForm_loop_run. Qed.

(** The outcome of the loop does not depend on the heap. *)
Lemma validateForm_loop_heap keys formData ok errs h h' :
  eval (validateForm_loop keys formData ok errs) h
  = eval (validateForm_loop keys formData ok errs) h'.
Proof.
  revert ok errs. induction keys as [|f keys IH]; intros ok errs; [done|].
  unfold eval in *. cbn [validateForm_loop]. unfold_monad.
  rewrite (validateField_run f _ h), (validateField_run f _ h').
  rewrite (validateField_heap f _ h h').
  destruct (Field.isValid _); cbn [negb]; apply IH.
Qed.

End FormLoop.

(** * The validators' contract *)

Section Contract.
Import JsString RegExp EmailShape.
Implicit Types (s p q f : jsstring) (v x : jsvalue) (h : heap).
Implicit Types (formData : gmap jsstring jsvalue).

(** C1. For every string, [validateField("name", v)] is valid exactly when
    the trimmed value has between 2 and 100 code units, bounds included,
    and [validateField("message", v)] exactly when it has between 10 and
    1000; a failing result carries the single message of the field's rule
    (and a passing one the empty string). *)
Theorem validateField_length_rules s h :
  let n := length (trim s) in
  let name := eval (validateField (js "name") (VString s)) h in
  let message := eval (validateField (js "message") (VString s)) h in
  (Field.isValid name = true ↔ (2 ≤ n ≤ 100)%nat)
  ∧ Field.errorMessage name
    = (if Field.isValid name then VString []
       else VString (js "Please enter your name (2-100 characters)"))
  ∧ (Field.isValid message = true ↔ (10 ≤ n ≤ 1000)%nat)
  ∧ Field.errorMessage message
    = (if Field.isValid message then VString []
       else VString (js "Please enter a message (10-1000 characters)")).
Proof.
  cbv zeta. unfold eval. rewrite validateField_name, validateField_message.
  cbn [fst trimmed].
  destruct (Nat.leb_spec 2 (length (trim s))), (Nat.leb_spec (length (trim s)) 100),
    (Nat.leb_spec 10 (length (trim s))), (Nat.leb_spec (length (trim s)) 1000);
    cbn [andb Field.isValid Field.errorMessage Field.pass Field.fail
         rule_name rule_message Rule.errorMessage];
    repeat split; try done; try lia; intros [? ?]; lia.
Qed.

(** C3. [validateEmail(x)] is false when [x] is not a string; for a string
    it is false when trimming leaves the empty string, and otherwise it is
    the outcome of testing the trimmed string against the pattern
    [^[^\s@]+@[^\s@]+\.[^\s@]+$]. *)
Theorem validateEmail_contract x h :
  eval (validateEmail x) h
  = match x with
    | VString s =>
        if is_empty (trim s) then false
        else eval (RegExpObject.test email_pattern (trim s)) h
    | _ => false
    end.
Proof.
  destruct x as [| | | | | |s|]; try done.
  unfold eval. rewrite validateEmail_string, test_email_pattern.
  by destruct (is_empty (trim s)).
Qed.

(** C4. The test against the pattern agrees with the description in words:
    a string is accepted exactly when it has exactly one [@], a non-empty
    local part before it, a domain part after it that contains a [.] with
    non-empty text on both sides, and no white space anywhere.  This holds
    for every string, in particular for the non-empty trimmed ones that
    [validateEmail] tests. *)
Theorem email_pattern_in_words s h :
  eval (RegExpObject.test email_pattern s) h = email_shape s.
Proof. unfold eval. rewrite test_email_pattern. apply accepts_email_shape. Qed.

(** C5. White space added before and after a string value does not change
    the result of [validateField], for every field name (so for [name],
    [email] and [message]). *)
Theorem validateField_padding f p s q h :
  all_whitespace p = true → all_whitespace q = true →
  validateField f (VString (p ++ s ++ q)) h = validateField f (VString s) h.
Proof.
  intros Hp Hq. apply validateField_trimmed. cbn [trimmed].
  by apply trim_pad.
Qed.

Lemma validateField_padding_witness :
  validateField (js "email") (VString (js "  " ++ js "a@b.c" ++ js " ")) 0%nat
  = validateField (js "email") (VString (js "a@b.c")) 0%nat.
Proof. apply validateField_padding; reflexivity. Defined.

(** C6. Every result of [validateField] has one of two shapes.  Either
    the field is valid and the message is the empty string; or the field
    is invalid, it has a rule of its own in the table, and the message is
    that rule's [errorMessage], a string that is not empty.  So the
    message is the empty string exactly when the field is valid. *)
Theorem validateField_result_shape f v h :
  let r := eval (validateField f v) h in
  (Field.errorMessage r = VString [] ↔ Field.isValid r = true)
  ∧ (Field.isValid r = true ∧ Field.errorMessage r = VString []
     ∨ Field.isValid r = false
       ∧ ∃ rules c message,
           own_property f validationRules = Some rules
           ∧ Field.errorMessage r = Rule.errorMessage rules
           ∧ Rule.errorMessage rules = VString (c :: message)).
Proof.
  cbv zeta. unfold eval. rewrite own_property_validationRules.
  destruct (decide (f = js "name")) as [->|Hn].
  { rewrite validateField_name. cbn [fst]. case_verdict; [by split; [|left]|].
    split; [done|]. right. split; [done|]. by eexists rule_name, _, _. }
  destruct (decide (f = js "email")) as [->|He].
  { rewrite validateField_email. cbn [fst]. case_verdict; [by split; [|left]|].
    split; [done|]. right. split; [done|]. by eexists rule_email, _, _. }
  destruct (decide (f = js "message")) as [->|Hm].
  { rewrite validateField_message. cbn [fst]. case_verdict; [by split; [|left]|].
    split; [done|]. right. split; [done|]. by eexists rule_message, _, _. }
  rewrite validateField_other by (by apply not_rule_key).
  by split; [|left].
Qed.

(** C7. A field name without an entry in the rule table is never
    rejected: the result is [{isValid: true, errorMessage: ''}] for every
    value of every type. *)
Theorem validateField_unknown f v h :
  own_property f validationRules = None →
  eval (validateField f v) h = Field.pass.
Proof.
  intros Hf. unfold eval. rewrite validateField_other; [done|].
  apply not_rule_key. rewrite own_property_validationRules in Hf.
  repeat case_bool_decide; done.
Qed.

Lemma validateField_unknown_witness :
  eval (validateField (js "toString") (VNumber S754_nan)) 0%nat = Field.pass.
Proof. apply validateField_unknown. vm_compute. reflexivity. Defined.

(** C8. The three validators are deterministic: whatever state the two
    calls start from (in particular the state left by the first call),
    equal arguments give equal results. *)
Theorem validators_deterministic x f v formData h h' :
  eval (validateEmail x) h = eval (validateEmail x) h'
  ∧ eval (validateField f v) h = eval (validateField f v) h'
  ∧ eval (validateForm formData) h = eval (validateForm formData) h'.
Proof.
  split; [|split].
  - unfold eval. by rewrite !validateEmail_run.
  - apply validateField_heap.
  - apply validateForm_loop_heap.
Qed.

(** C9. On the [email] field the verdict of [validateField] is the verdict
    of [validateEmail], for values of every type. *)
Theorem validateField_email_is_validateEmail v h :
  Field.isValid (eval (validateField (js "email") v) h) = eval (validateEmail v) h.
Proof.
  unfold eval. rewrite validateField_email, validateEmail_run. cbn [fst].
  by destruct (_ && _).
Qed.

(** C2. [validateForm] is valid exactly when each field of the rule table
    passes [validateField], a field missing from the record being
    validated as the empty string; [errors] has the rule's message for
    each failing field of the table and no other entry; so the form is
    valid exactly when [errors] is empty. *)
Theorem validateForm_contract formData h :
  let r := eval (validateForm formData) h in
  let verdict f := eval (validateField f (submitted formData f)) h in
  (Form.isValid r = true
   ↔ Forall (λ f, Field.isValid (verdict f) = true) (validationRules.*1))
  ∧ (∀ f, Form.errors r !! f
          = match own_property f validationRules with
            | Some rules =>
                if Field.isValid (verdict f) then None
                else Some (Rule.errorMessage rules)
            | None => None
            end)
  ∧ (Form.isValid r = true ↔ Form.errors r = ∅).
Proof.
  cbv zeta.
  assert (Hvalid : Form.isValid (eval (validateForm formData) h) = true
    ↔ Forall (λ f, Field.isValid (eval (validateField f (submitted formData f)) h) = true)
        (validationRules.*1)).
  { unfold eval at 1, validateForm. rewrite validateForm_loop_run.
    cbn [fst Form.isValid andb].
    rewrite forallb_forall, Forall_forall. by setoid_rewrite list_elem_of_In. }
  assert (Hlookup : ∀ f, Form.errors (eval (validateForm formData) h) !! f
    = match own_property f validationRules with
      | Some rules =>
          if Field.isValid (eval (validateField f (submitted formData f)) h) then None
          else Some (Rule.errorMessage rules)
      | None => None
      end).
  { intros f. unfold eval at 1, validateForm. rewrite validateForm_loop_run.
    cbn [fst Form.errors]. rewrite foldl_errors_lookup, lookup_empty.
    change (validationRules.*1) with [js "name"; js "email"; js "message"].
    destruct (decide (f = js "name")) as [->|Hn].
    { change (own_property (js "name") validationRules) with (Some rule_name).
      rewrite bool_decide_eq_true_2 by (rewrite !elem_of_cons; auto).
      unfold eval. rewrite validateField_name. cbn [fst]. by case_verdict. }
    destruct (decide (f = js "email")) as [->|He].
    { change (own_property (js "email") validationRules) with (Some rule_email).
      rewrite bool_decide_eq_true_2 by (rewrite !elem_of_cons; auto).
      unfold eval. rewrite validateField_email. cbn [fst]. by case_verdict. }
    destruct (decide (f = js "message")) as [->|Hm].
    { change (own_property (js "message") validationRules) with (Some rule_message).
      rewrite bool_decide_eq_true_2 by (rewrite !elem_of_cons; auto).
      unfold eval. rewrite validateField_message. cbn [fst]. by case_verdict. }
    rewrite own_property_validationRules.
    rewrite !(bool_decide_eq_false_2 (f = _)) by done.
    rewrite bool_decide_eq_false_2; [done|].
    rewrite !elem_of_cons, elem_of_nil. by intros [?|[?|[?|?]]]. }
  split; [exact Hvalid|]. split; [exact Hlookup|].
  rewrite Hvalid. split.
  - intros Hall. apply map_eq. intros f. rewrite Hlookup, lookup_empty.
    rewrite own_property_validationRules.
    rewrite Forall_forall in Hall.
    repeat case_bool_decide; subst; try done;
      rewrite Hall; try done;
      change (validationRules.*1) with [js "name"; js "email"; js "message"];
      rewrite !elem_of_cons; auto.
  - intros Hempty. apply Forall_forall. intros f Hf.
    pose proof (Hlookup f) as Hl. rewrite Hempty, lookup_empty in Hl.
    change (validationRules.*1) with [js "name"; js "email"; js "message"] in Hf.
    rewrite !elem_of_cons, elem_of_nil in Hf.
    destruct (Field.isValid _); [done|].
    destruct Hf as [->|[->|[->|[]]]]; discriminate Hl.
Qed.

(** C10. The result of [validateForm] depends on the submitted record only
    through its entries for the keys of the rule table: two records that
    agree on [name], [email] and [message] (an entry missing from both
    counts as agreement) give the same result, whatever else they hold. *)
Theorem validateForm_relevant_keys (formData1 formData2 : gmap jsstring jsvalue) h :
  Forall (λ f, formData1 !! f = formData2 !! f) (validationRules.*1) →
  validateForm formData1 h = validateForm formData2 h.
Proof.
  change (validationRules.*1) with [js "name"; js "email"; js "message"].
  rewrite !Forall_cons. intros (H1 & H2 & H3 & _).
  unfold validateForm.
  change (validationRules.*1) with [js "name"; js "email"; js "message"].
  cbn [validateForm_loop]. unfold field_value, formData_get.
  by rewrite H1, H2, H3.
Qed.

Lemma validateForm_relevant_keys_witness :
  validateForm (<[js "name" := VString (js "Ada")]> ∅) 0%nat
  = validateForm (<[js "phone" := VNumber S754_nan]>
                    (<[js "name" := VString (js "Ada")]> ∅)) 0%nat.
Proof.
  apply validateForm_relevant_keys.
  repeat constructor; vm_compute; reflexivity.
Defined.

End Contract.

(** * Test vectors *)

Section Vectors.
Import JsString.

Example name_empty :
  run (validateField (js "name") (VString []))
  = {| Field.isValid := false;
       Field.errorMessage := VString (js "Please enter your name (2-100 characters)") |}.
Proof. reflexivity. Qed.

Example name_Jo : run (validateField (js "name") (VString (js "Jo"))) = Field.pass.
Proof. reflexivity. Qed.

Example name_J :
  Field.isValid (run (validateField (js "name") (VString (js "J")))) = false.
Proof. reflexivity. Qed.

Example message_bounds :
  map (λ n, Field.isValid (run (validateField (js "message") (VString (replicate n 0x41)))))
      [9; 10; 1000; 1001]%nat
  = [false; true; true; false].
Proof. vm_compute. reflexivity. Qed.

Example email_vectors :
  map (λ s, run (validateEmail (VString s)))
      [ js "a@b.c"; js "user.name@a.b.c.d.com"; js "  test@example.com ";
        []; js "   "; js "plaintext"; js "@domain.com"; js "user@";
        js "user@domain"; js "user@@domain.com"; js "user@domain@other.com";
        js "us er@domain.com"; js "user@dom ain.com" ]
  = [ true; true; true;
      false; false; false; false; false;
      false; false; false;
      false; false ].
Proof. vm_compute. reflexivity. Qed.

(** The runs of the pattern around its [.] may themselves hold dots. *)
Example email_adjacent_dots :
  map (λ s, run (validateEmail (VString s))) [ js "a@b..c"; js "a@.b.c"; js "a@b.c." ]
  = [ true; true; true ].
Proof. vm_compute. reflexivity. Qed.

Example email_not_a_string :
  map (λ x, run (validateEmail x))
      [ VNull; VUndefined; VNumber (S754_finite false 123 0); VObject false 0;
        VObject false 1 ]
  = [ false; false; false; false; false ].
Proof. reflexivity. Qed.

Example form_all_valid :
  run (validateForm
         (<[js "name" := VString (js "John Doe")]>
          (<[js "email" := VString (js "john@example.com")]>
           (<[js "message" :=
                VString (js "This is a valid message with enough characters.")]> ∅))))
  = {| Form.isValid := true; Form.errors := ∅ |}.
Proof. vm_compute. reflexivity. Qed.

Example form_all_invalid :
  let r := run (validateForm
                  (<[js "name" := VString []]>
                   (<[js "email" := VString (js "invalid")]>
                    (<[js "message" := VString (js "short")]> ∅)))) in
  Form.isValid r = false ∧ size (Form.errors r) = 3%nat.
Proof. vm_compute. split; reflexivity. Qed.

End Vectors.

(** * More about the validators *)

Section ValidatorsMore.
Import JsString RegExp EmailShape.
Implicit Types (s f : jsstring) (v : jsvalue) (h : heap).
Implicit Types (formData : gmap jsstring jsvalue).

Lemma trimmed_blank v :
  trimmed v = [] ↔ match v with VString s => all_whitespace s = true | _ => True end.
Proof. destruct v; try done. apply trim_nil_iff. Qed.

Lemma own_rule_cases f rules :
  own_property f validationRules = Some rules →
  (f = js "name" ∧ rules = rule_name)
  ∨ (f = js "email" ∧ rules = rule_email)
  ∨ (f = js "message" ∧ rules = rule_message).
Proof.
  rewrite own_property_validationRules.
  repeat case_bool_decide; intros [= <-]; auto.
Qed.

(** X1. Every field of the rule table is required: a value that is not a
    string, or a string of white space only, fails with the rule's
    message. *)
Theorem validateField_required f rules v h :
  own_property f validationRules = Some rules →
  trimmed v = [] →
  eval (validateField f v) h = Field.fail rules.
Proof.
  intros Hf Hv. unfold eval.
  destruct (own_rule_cases f rules Hf) as [[-> ->] | [[-> ->] | [-> ->]]].
  - by rewrite validateField_name, Hv.
  - by rewrite validateField_email, Hv.
  - by rewrite validateField_message, Hv.
Qed.

Lemma validateField_required_witness :
  eval (validateField (js "message") (VObject false 7)) 0%nat = Field.fail rule_message.
Proof. apply validateField_required; reflexivity. Defined.

Lemma trim_fixed c s c' :
  is_whitespace c = false → is_whitespace c' = false →
  trim (c :: s ++ [c']) = c :: s ++ [c'].
Proof.
  intros Hc Hc'. unfold trim. cbn [trimStart]. rewrite Hc.
  change (c :: s ++ [c']) with ((c :: s) ++ [c']). rewrite trimEnd_app.
  cbn [all_whitespace forallb]. rewrite Hc'. cbn [andb].
  unfold trimEnd. cbn [rev app trimStart]. by rewrite Hc'.
Qed.

Lemma splits_length s l d1 d2 : splits s l d1 d2 → (5 ≤ length s)%nat.
Proof.
  intros (-> & Hl & Hd1 & Hd2 & _).
  rewrite length_app. cbn [length]. rewrite length_app. cbn [length].
  destruct l; [done|]. destruct d1; [done|]. destruct d2; [done|].
  cbn [length]. lia.
Qed.

(** X2. An accepted e-mail address has at least five code units once
    trimmed (as in [a@b.c]). *)
Theorem validateEmail_min_length s h :
  eval (validateEmail (VString s)) h = true → (5 ≤ length (trim s))%nat.
Proof.
  unfold eval. rewrite validateEmail_string. cbn [fst].
  intros [_ (l & d1 & d2 & H)%accepts_email_regex]%andb_true_iff.
  by eapply splits_length.
Qed.

Lemma validateEmail_min_length_witness : (5 ≤ length (trim (js " a@b.c ")))%nat.
Proof. apply (validateEmail_min_length _ 0%nat). reflexivity. Defined.

(** X3. The e-mail rule has no upper bound: there are accepted addresses
    longer than any given length. *)
Theorem validateEmail_unbounded (n : nat) h :
  ∃ s, (n < length s)%nat ∧ eval (validateEmail (VString s)) h = true.
Proof.
  exists (replicate (S n) 0x61 ++ js "@b.c"). split.
  - rewrite length_app, length_replicate. lia.
  - assert (Hs : splits (replicate (S n) 0x61 ++ js "@b.c")
                   (replicate (S n) 0x61) (js "b") (js "c")).
    { repeat split; try done.
      induction n as [|n IH]; [done|]. by cbn [replicate forallb] in *. }
    assert (Ht : trim (replicate (S n) 0x61 ++ js "@b.c")
                 = replicate (S n) 0x61 ++ js "@b.c").
    { replace (replicate (S n) 0x61 ++ js "@b.c")
        with (0x61 :: (replicate n 0x61 ++ js "@b.") ++ [0x63])
        by (cbn; by rewrite <- app_assoc).
      by apply trim_fixed. }
    unfold eval. rewrite validateEmail_string, Ht. cbn [fst].
    apply andb_true_iff. split; [done|]. apply accepts_email_regex. eauto.
Qed.

Lemma email_shape_nonempty s : email_shape s = true → is_empty s = false.
Proof.
  intros (l & d1 & d2 & H)%email_shape_splits. apply splits_length in H.
  destruct s; [simpl in H; lia | done].
Qed.

Lemma isValid_verdict (c : bool) rules :
  Field.isValid (if c then Field.pass else Field.fail rules) = c.
Proof. by destruct c. Qed.

Lemma form_valid_iff formData h :
  Form.isValid (eval (validateForm formData) h) = true
  ↔ (2 ≤ length (trimmed (submitted formData (js "name"))) ≤ 100)%nat
    ∧ email_shape (trimmed (submitted formData (js "email"))) = true
    ∧ (10 ≤ length (trimmed (submitted formData (js "message"))) ≤ 1000)%nat.
Proof.
  unfold eval at 1, validateForm. rewrite validateForm_loop_run.
  change (validationRules.*1) with [js "name"; js "email"; js "message"].
  cbn [fst Form.isValid forallb andb]. unfold eval.
  rewrite validateField_name, validateField_email, validateField_message.
  cbn [fst]. rewrite accepts_email_shape, !isValid_verdict.
  pose proof (email_shape_nonempty (trimmed (submitted formData (js "email")))).
  rewrite !andb_true_iff, !Nat.leb_le, negb_true_iff.
  split.
  - intros ([? ?] & [_ ?] & [? ?] & _). auto.
  - intros ([? ?] & ? & [? ?]). auto 10.
Qed.

(** X4. A form is valid exactly when the trimmed name has 2 to 100 code
    units, the trimmed e-mail has the e-mail shape, and the trimmed
    message has 10 to 1000 code units. *)
Theorem validateForm_valid_iff formData h :
  Form.isValid (eval (validateForm formData) h) = true
  ↔ (2 ≤ length (trimmed (submitted formData (js "name"))) ≤ 100)%nat
    ∧ email_shape (trimmed (submitted formData (js "email"))) = true
    ∧ (10 ≤ length (trimmed (submitted formData (js "message"))) ≤ 1000)%nat.
Proof. apply form_valid_iff. Qed.

End ValidatorsMore.

(** * Smooth scroll: link targets *)

Section LinkTargets.
Import JsString RegExp SmoothScroll.
Implicit Types (s href hash frag : jsstring) (ids : gmap jsstring Dom.node).

Lemma leading_hash_matcher x :
  compile leading_hash x (λ y, Some y)
  = match endIndex x, rest x with
    | O, 0x23 :: post => Some {| endIndex := 1; rest := post |}
    | _, _ => None
    end.
Proof.
  destruct x as [[|i] [|c post]]; try done.
  cbn. unfold CharacterSetMatcher. cbn.
  destruct (N.eqb_spec 0x23 c) as [<-|Hc]; [done|].
  destruct c as [|p]; [done|].
  repeat (destruct p as [p|p|]; try done).
Qed.

Lemma search_span_leading_hash_later i s :
  search_span (compile leading_hash) (S i) s = None.
Proof.
  revert i. induction s as [|c s IH]; intros i; cbn [search_span];
    rewrite leading_hash_matcher; cbn; [done | apply IH].
Qed.

Lemma cleanId_cases s :
  cleanId s = match s with
              | 0x23 :: s' => s'
              | _ => s
              end.
Proof.
  unfold cleanId, replace.
  destruct s as [|c s]; [done|]. cbn [search_span].
  rewrite leading_hash_matcher. cbn [endIndex rest].
  destruct (N.eqb_spec c 0x23) as [->|Hc].
  - cbn. by rewrite drop_0.
  - rewrite search_span_leading_hash_later.
    destruct c as [|p]; [done|].
    repeat (destruct p as [p|p|]; try done).
Qed.

(** X5. The identifier that [smoothScrollTo] looks up is its argument
    without one leading [#]; an argument that does not start with [#] is
    looked up as it is. *)
Theorem cleanId_strips_one_hash s :
  cleanId s = match s with
              | 0x23 :: s' => s'
              | _ => s
              end.
Proof. apply cleanId_cases. Qed.

Lemma startsWith_hash s :
  startsWith (js "#") s = match s with 0x23 :: _ => true | _ => false end.
Proof.
  destruct s as [|c s]; [done|]. cbn. rewrite andb_true_r.
  destruct (N.eqb_spec 0x23 c) as [<-|Hc]; [done|].
  destruct c as [|p]; [done|].
  repeat (destruct p as [p|p|]; try done).
Qed.

(** X6. A click on a link [#frag] and a page load with the hash [#frag]
    scroll to the same element when [frag] does not start with [#]: both
    look up [frag].  When [frag] is [#rest], the click looks up [rest] but
    the page load looks up [#rest]. *)
Theorem link_and_hash_destinations ids frag :
  hash_destination ids (0x23 :: frag) = (if is_empty frag then None else ids !! frag)
  ∧ link_destination ids (Some (0x23 :: frag))
    = (if is_empty frag then None else ids !! cleanId frag).
Proof.
  unfold hash_destination, link_destination,
    handleInitialHash_target, handleNavLinkClick_target.
  rewrite startsWith_hash. cbn [is_empty negb orb andb length drop].
  destruct frag as [|c frag]; [done|]. cbn [is_empty].
  replace (eqb (0x23 :: c :: frag) (js "#")) with false
    by (symmetry; by apply eqb_false).
  replace (1 <? S (S (length frag)))%nat with true
    by (symmetry; apply Nat.ltb_lt; lia).
  cbn. by rewrite cleanId_cases.
Qed.

End LinkTargets.

(** * Smooth scroll: the navigation offset *)

Section NavOffset.
Import JsString SmoothScroll.
Implicit Types (s suffix : jsstring) (c : code_unit) (u : Decimal.uint).

Lemma shr_1_nonneg mrs : (0 ≤ shr_m mrs)%Z → (0 ≤ shr_m (shr_1 mrs))%Z.
Proof. destruct mrs as [[|[p|p|]|p] r t]; simpl; lia. Qed.

Lemma iter_pos_invariant {A} (f : A → A) (Inv : A → Prop) :
  (∀ x, Inv x → Inv (f x)) → ∀ p x, Inv x → Inv (SpecFloat.iter_pos f p x).
Proof.
  intros Hf. induction p as [p IH|p IH|]; intros x Hx; simpl; auto.
Qed.

Lemma shr_fexp_nonneg prec emax m e l :
  (0 ≤ m)%Z → (0 ≤ shr_m (fst (shr_fexp prec emax m e l)))%Z.
Proof.
  intros Hm. unfold shr_fexp, shr.
  assert (H0 : (0 ≤ shr_m (shr_record_of_loc m l))%Z)
    by (destruct l as [|[]]; done).
  destruct (_ - e)%Z; try done. simpl.
  by apply (iter_pos_invariant shr_1 (λ r, (0 ≤ shr_m r)%Z) shr_1_nonneg).
Qed.

Lemma round_nearest_even_nonneg m l :
  (0 ≤ m)%Z → (0 ≤ round_nearest_even m l)%Z.
Proof.
  intros Hm. destruct l as [|[]]; simpl; try done; [|lia].
  destruct (Z.even m); lia.
Qed.

Lemma binary_round_aux_not_nan prec emax sx m e l :
  (0 ≤ m)%Z → binary_round_aux prec emax sx m e l ≠ S754_nan.
Proof.
  intros Hm. unfold binary_round_aux.
  pose proof (shr_fexp_nonneg prec emax m e l Hm) as H1.
  destruct (shr_fexp prec emax m e l) as [mrs' e']. simpl in H1.
  pose proof (shr_fexp_nonneg prec emax _ e' loc_Exact
                (round_nearest_even_nonneg _ (loc_of_shr_record mrs') H1)) as H2.
  destruct (shr_fexp prec emax (round_nearest_even _ _) e' loc_Exact) as [mrs'' e''].
  simpl in H2. destruct (shr_m mrs''); [done | by destruct (_ <=? _)%Z | lia].
Qed.

Lemma binary_normalize_not_nan prec emax m e szero :
  binary_normalize prec emax m e szero ≠ S754_nan.
Proof.
  destruct m as [|p|p]; [done|..]; unfold binary_normalize, binary_round;
    destruct (shl_align _ _ _) as [mz ez]; by apply binary_round_aux_not_nan.
Qed.

Lemma parseInt10_NaN s :
  isNaN (parseInt10 s)
  = is_empty (digits_prefix (strip_sign (trimStart s)).2).
Proof.
  unfold parseInt10. destruct (strip_sign (trimStart s)) as [negative unsigned].
  cbn [snd]. destruct (is_empty (digits_prefix unsigned)); [done|].
  destruct (_ =? 0)%Z; [done|].
  pose proof (binary_normalize_not_nan 53 1024
    (if negative then - Z.of_N (digits_value (digits_prefix unsigned))
     else Z.of_N (digits_value (digits_prefix unsigned)))%Z 0 false) as H.
  by destruct (binary_normalize _ _ _ _ _).
Qed.

(** X7. [getNavOffset] returns the configured height 70 when the value of
    [--nav-height], after leading white space and an optional sign, does
    not start with a decimal digit (an empty value, [auto], [px]);
    otherwise it returns the integer read by [parseInt].  It never returns
    [NaN]. *)
Theorem getNavOffset_fallback s :
  getNavOffset s
  = (if is_empty (digits_prefix (strip_sign (trimStart s)).2)
     then Number.of_nat 70 else parseInt10 s)
  ∧ isNaN (getNavOffset s) = false.
Proof.
  unfold getNavOffset. rewrite parseInt10_NaN.
  destruct s as [|c s]; [done|]. cbn [ToBoolean is_empty negb].
  destruct (is_empty (digits_prefix _)) eqn:E; [done|]. cbn [negb].
  split; [done|]. by rewrite parseInt10_NaN, E.
Qed.

Lemma is_digit_not_whitespace c : is_digit c = true → is_whitespace c = false.
Proof.
  unfold is_digit. intros [H1 H2]%andb_true_iff.
  apply N.leb_le in H1, H2. unfold is_whitespace.
  rewrite !(proj2 (N.eqb_neq c _)) by lia.
  rewrite (proj2 (N.leb_gt 0x2000 c)) by lia. done.
Qed.

Lemma lit_uint_digits u :
  forallb is_digit (lit (NilEmpty.string_of_uint u)) = true.
Proof. induction u; simpl; auto. Qed.

Lemma digits_value_uint u (acc : N) :
  N.to_nat (foldl (λ a c, 10 * a + (c - 0x30)) acc (lit (NilEmpty.string_of_uint u)))
  = Nat.of_uint_acc u (N.to_nat acc).
Proof.
  revert acc. induction u as [|u IH|u IH|u IH|u IH|u IH|u IH|u IH|u IH|u IH|u IH];
    intros acc; cbn [NilEmpty.string_of_uint lit foldl Nat.of_uint_acc]; [done|..];
    rewrite IH; f_equal; rewrite Nat.tail_mul_spec; cbn; lia.
Qed.

Lemma digits_prefix_app ds suffix :
  forallb is_digit ds = true →
  match suffix with c :: _ => is_digit c = false | [] => True end →
  digits_prefix (ds ++ suffix) = ds.
Proof.
  intros Hds Hs. induction ds as [|c ds IH]; simpl in *.
  - destruct suffix as [|c suffix]; [done|]. simpl. by rewrite Hs.
  - apply andb_true_iff in Hds as [-> Hds]. by rewrite IH.
Qed.

Lemma lit_uint_value u :
  digits_value (lit (NilEmpty.string_of_uint u)) = N.of_nat (Nat.of_uint u).
Proof.
  apply N2Nat.inj. unfold digits_value. by rewrite digits_value_uint, Nat2N.id.
Qed.

Lemma uint_digits u :
  ∃ c ds, lit (NilZero.string_of_uint u) = c :: ds
          ∧ forallb is_digit (c :: ds) = true
          ∧ digits_value (c :: ds) = N.of_nat (Nat.of_uint u).
Proof.
  destruct u; [by exists 0x30, []|..];
    match goal with
    | |- ∃ c ds, lit (NilZero.string_of_uint ?d) = _ ∧ _ =>
        eexists _, _; split; [reflexivity|];
        split; [exact (lit_uint_digits d) | exact (lit_uint_value d)]
    end.
Qed.

Lemma toString_nat_digits (n : nat) :
  ∃ c ds, Number.toString_nat n = c :: ds
          ∧ forallb is_digit (c :: ds) = true
          ∧ digits_value (c :: ds) = N.of_nat n.
Proof.
  destruct (uint_digits (Nat.to_uint n)) as (c & ds & E & Hd & Hv).
  exists c, ds. by rewrite DecimalNat.Unsigned.of_to in Hv.
Qed.

Lemma getNavOffset_of_nat (n : nat) suffix :
  match suffix with c :: _ => is_digit c = false | [] => True end →
  getNavOffset (Number.toString_nat n ++ suffix) = Number.of_nat n.
Proof.
  intros Hs. destruct (toString_nat_digits n) as (c & ds & E & Hd & Hv).
  rewrite E. unfold getNavOffset. cbn [app ToBoolean is_empty negb].
  assert (Hc : is_digit c = true) by (by apply andb_true_iff in Hd as [? _]).
  assert (Hp : parseInt10 ((c :: ds) ++ suffix) = Number.of_nat n).
  { unfold parseInt10, strip_sign. cbn [app trimStart].
    rewrite (is_digit_not_whitespace c Hc).
    assert ((c =? 0x2D) = false ∧ (c =? 0x2B) = false) as [-> ->].
    { unfold is_digit in Hc. apply andb_true_iff in Hc as [H1 H2].
      apply N.leb_le in H1, H2. split; apply N.eqb_neq; lia. }
    change (c :: ds ++ suffix) with ((c :: ds) ++ suffix).
    rewrite (digits_prefix_app _ _ Hd Hs). cbn [is_empty]. rewrite Hv.
    rewrite nat_N_Z. unfold Number.of_nat.
    destruct (Z.eqb_spec (Z.of_nat n) 0) as [->|]; done. }
  change (c :: ds ++ suffix) with ((c :: ds) ++ suffix). rewrite Hp.
  pose proof (binary_normalize_not_nan 53 1024 (Z.of_nat n) 0 false) as Hn.
  unfold Number.of_nat in *. by destruct (binary_normalize _ _ _ _ _).
Qed.

(** *** Integers below 2^53 are doubles *)

Lemma digits2_pos_lower (p : positive) :
  (2 ^ (Z.pos (digits2_pos p) - 1) ≤ Z.pos p)%Z.
Proof.
  induction p as [p IH|p IH|]; cbn [digits2_pos]; [| |done];
    rewrite Pos2Z.inj_succ;
    replace (Z.succ (Z.pos (digits2_pos p)) - 1)%Z
      with (Z.succ (Z.pos (digits2_pos p) - 1)) by lia;
    rewrite Z.pow_succ_r by lia; lia.
Qed.

Lemma digits2_pos_iter_xO (p k : positive) :
  digits2_pos (Pos.iter xO p k) = (digits2_pos p + k)%positive.
Proof.
  induction k as [|k IH] using Pos.peano_ind.
  - cbn. lia.
  - rewrite Pos.iter_succ. cbn [digits2_pos]. rewrite IH. lia.
Qed.

Lemma Zpos_iter_xO (p k : positive) :
  Z.pos (Pos.iter xO p k) = (Z.pos p * 2 ^ Z.pos k)%Z.
Proof.
  induction k as [|k IH] using Pos.peano_ind.
  - cbn. lia.
  - rewrite Pos.iter_succ, Pos2Z.inj_succ, Z.pow_succ_r by lia.
    rewrite Pos2Z.inj_xO, IH. lia.
Qed.

(** A mantissa of exactly 53 bits with an exponent between -52 and 0 is
    not rounded. *)
Lemma binary_round_aux_exact (m : positive) (e : Z) :
  Z.pos (digits2_pos m) = 53%Z → (-52 ≤ e ≤ 0)%Z →
  binary_round_aux 53 1024 false (Z.pos m) e loc_Exact = S754_finite false m e.
Proof.
  intros Hd He.
  assert (Hshr : shr_fexp 53 1024 (Z.pos m) e loc_Exact
                 = ({| shr_m := Z.pos m; shr_r := false; shr_s := false |}, e)).
  { unfold shr_fexp, fexp, emin. cbn [Zdigits2 shr_record_of_loc]. rewrite Hd.
    replace (Z.max (53 + e - 53) (3 - 1024 - 53) - e)%Z with 0%Z by lia. done. }
  unfold binary_round_aux. rewrite Hshr. cbn [shr_m loc_of_shr_record round_nearest_even].
  rewrite Hshr. cbn [shr_m].
  by rewrite (proj2 (Z.leb_le e (1024 - 53))) by lia.
Qed.

(** The double of an integer below 2^53 has exactly the integer's
    value. *)
Lemma binary_normalize_exact (z : Z) :
  (0 ≤ z < 2 ^ 53)%Z →
  Number.compare_Z (binary_normalize 53 1024 z 0 false) z = Some Eq.
Proof.
  intros [H0 H53]. destruct z as [|p|p]; [done| |lia].
  cbn [binary_normalize]. unfold binary_round.
  pose proof (digits2_pos_lower p) as Hlow.
  assert (Hd : (Z.pos (digits2_pos p) ≤ 53)%Z).
  { destruct (Z.le_gt_cases (Z.pos (digits2_pos p)) 53) as [|Hgt]; [done|].
    assert (2 ^ 53 ≤ 2 ^ (Z.pos (digits2_pos p) - 1))%Z
      by (apply Z.pow_le_mono_r; lia).
    lia. }
  unfold shl_align, fexp, emin.
  replace (Z.max (Z.pos (digits2_pos p) + 0 - 53) (3 - 1024 - 53) - 0)%Z
    with (Z.pos (digits2_pos p) - 53)%Z by lia.
  destruct (Z.pos (digits2_pos p) - 53)%Z as [|k|k] eqn:Ek; [|lia|].
  - rewrite binary_round_aux_exact by lia.
    cbn [Number.compare_Z Z.leb Z.compare]. f_equal. apply Z.compare_eq_iff. lia.
  - replace (Z.max (Z.pos (digits2_pos p) + 0 - 53) (3 - 1024 - 53))%Z
      with (Z.neg k) by lia.
    rewrite binary_round_aux_exact
      by (rewrite ?digits2_pos_iter_xO; lia).
    cbn [Number.compare_Z]. replace (0 <=? Z.neg k)%Z with false by done.
    f_equal. apply Z.compare_eq_iff. rewrite Zpos_iter_xO. reflexivity.
Qed.

(** X8. A [--nav-height] written as a natural number below 2^53 followed
    by text that does not start with a digit (as in [70px]) is read back
    as exactly that number: the double returned by [getNavOffset] is the
    Number of [n], and its value is [n].  (From 2^53 on the integer is
    rounded to a double, see [getNavOffset_rounds].) *)
Theorem getNavOffset_reads_number (n : nat) suffix :
  match suffix with c :: _ => is_digit c = false | [] => True end →
  (Z.of_nat n < 2 ^ 53)%Z →
  getNavOffset (Number.toString_nat n ++ suffix) = Number.of_nat n
  ∧ Number.compare_Z (getNavOffset (Number.toString_nat n ++ suffix)) (Z.of_nat n)
    = Some Eq.
Proof.
  intros Hs Hn. rewrite getNavOffset_of_nat by done.
  split; [done|]. apply binary_normalize_exact. lia.
Qed.

Lemma getNavOffset_reads_number_witness :
  getNavOffset (Number.toString_nat 70 ++ js "px") = Number.of_nat 70
  ∧ Number.compare_Z (getNavOffset (Number.toString_nat 70 ++ js "px")) (Z.of_nat 70)
    = Some Eq.
Proof. apply getNavOffset_reads_number; [reflexivity | by vm_compute]. Defined.

End NavOffset.

(** * Smooth scroll: focusing the target *)

Section FocusTarget.
Import Dom SmoothScroll.
Implicit Types (st : state) (n element : node) (evs : list event).

Lemma update_same n f (d : document) : update n f d n = f (d n).
Proof. unfold update. by rewrite decide_True. Qed.

Lemma update_other n m f (d : document) : m ≠ n → update n f d m = d m.
Proof. intros H. unfold update. by rewrite decide_False. Qed.

Lemma focusTarget_invariant d0 element st :
  focus_invariant d0 st → focus_invariant d0 (focusTarget element st).
Proof.
  intros [Hnd Hinv]. unfold focusTarget, hasAttribute.
  destruct (bool_decide (tagName _ ∈ _) || bool_decide _) eqn:E;
    unfold focus_invariant; cbn [negb dom timers]; [by split|].
  apply orb_false_iff in E as [_ Ht%bool_decide_eq_false].
  assert (Hout : element ∉ timers st).
  { intros Hin. apply Hinv in Hin as [_ Hin]. apply Ht.
    rewrite Hin, lookup_insert_eq. eauto. }
  assert (Horig : attributes (d0 element) !! js "tabindex" = None).
  { rewrite <- (proj1 (Hinv element) Hout). by apply eq_None_not_Some. }
  split.
  - apply NoDup_app. repeat split; [done| |apply NoDup_singleton].
    intros x Hx ->%list_elem_of_singleton. done.
  - intros n. unfold setAttribute. rewrite elem_of_app, list_elem_of_singleton.
    destruct (decide (n = element)) as [->|Hne].
    + rewrite update_same. cbn [with_attributes attributes]. split.
      * intros H. exfalso. apply H. by right.
      * intros _. split; [done|]. by rewrite (proj1 (Hinv element) Hout).
    + rewrite update_other by done. split.
      * intros H. apply Hinv. intros ?. apply H. by left.
      * intros [H|H]; [by apply Hinv | done].
Qed.

Lemma timeout_invariant d0 st :
  focus_invariant d0 st → focus_invariant d0 (timeout st).
Proof.
  intros [Hnd Hinv]. unfold timeout.
  destruct (timers st) as [|element rest] eqn:E; [split; rewrite E; done|].
  apply NoDup_cons in Hnd as [Hout Hnd].
  unfold focus_invariant. cbn [dom timers]. split; [done|].
  intros n. unfold removeAttribute.
  destruct (decide (n = element)) as [->|Hne].
  - rewrite update_same. cbn [with_attributes attributes]. split; [|done].
    intros _. destruct (proj2 (Hinv element)) as [H0 ->]; [left|].
    rewrite delete_insert_eq. by apply delete_id.
  - rewrite update_other by done. split.
    + intros H. apply Hinv. rewrite elem_of_cons. by intros [?|?].
    + intros H. apply Hinv. by right.
Qed.

Lemma run_invariant d0 evs st :
  focus_invariant d0 st → focus_invariant d0 (run evs st).
Proof.
  revert st. induction evs as [|ev evs IH]; intros st H; [done|].
  apply IH. destruct ev; [by apply focusTarget_invariant | by apply timeout_invariant].
Qed.

(** X9. [focusTarget] leaves no trace: after any sequence of calls and
    timer expirations, once no timer is waiting, every element has the
    attributes it had at the start (a [tabindex] that the page itself gave
    to an element is kept, one that [focusTarget] added is gone). *)
Theorem focusTarget_leaves_no_trace evs st :
  timers st = [] →
  timers (run evs st) = [] →
  ∀ n, attributes (dom (run evs st) n) = attributes (dom st n).
Proof.
  intros H0 Hend n.
  assert (Hinit : focus_invariant (dom st) st).
  { split; [rewrite H0; constructor|]. intros m. rewrite H0. split; [done|].
    by intros ?%elem_of_nil. }
  destruct (run_invariant (dom st) evs st Hinit) as [_ Hinv].
  apply Hinv. rewrite Hend. apply not_elem_of_nil.
Qed.

Lemma focusTarget_leaves_no_trace_witness :
  attributes
    (dom (run [FocusTarget 1%nat; FocusTarget 1%nat; TimerFires]
            {| dom := λ _, plain (js "SECTION"); focus := None; timers := [] |}) 1%nat)
  = ∅.
Proof.
  apply (focusTarget_leaves_no_trace [FocusTarget 1%nat; FocusTarget 1%nat; TimerFires]
           {| dom := λ _, plain (js "SECTION"); focus := None; timers := [] |});
    reflexivity.
Defined.

End FocusTarget.

(** * Navigation menu *)

Section Menu.
Import Dom Nav.
Implicit Types (r : refs) (st : state) (ev : event) (evs : list event).

Lemma classList_setAttribute n k v (d : document) m :
  classList (setAttribute n k v d m) = classList (d m).
Proof. unfold setAttribute, update. by case_decide. Qed.

Lemma classList_add_same n c (d : document) :
  classList (classList_add n c d n) = {[c]} ∪ classList (d n).
Proof. unfold classList_add. by rewrite update_same. Qed.

Lemma classList_remove_same n c (d : document) :
  classList (classList_remove n c d n) = classList (d n) ∖ {[c]}.
Proof. unfold classList_remove. by rewrite update_same. Qed.

Lemma getAttribute_setAttribute n k v (d : document) :
  getAttribute n k (setAttribute n k v d) = Some v.
Proof.
  unfold getAttribute, setAttribute. rewrite update_same.
  apply lookup_insert_eq.
Qed.

Lemma toggleMobileMenu_consistent r st : consistent r (toggleMobileMenu r st).
Proof.
  unfold consistent, toggleMobileMenu. cbn [isMenuOpen dom overflow].
  rewrite classList_setAttribute, getAttribute_setAttribute.
  split; [|done]. unfold classList_toggle.
  destruct (negb (isMenuOpen st)).
  - rewrite classList_add_same. split; [done|].
    intros _. by apply elem_of_union_l, elem_of_singleton.
  - rewrite classList_remove_same. split; [|done].
    intros [_ H]%elem_of_difference. exfalso. apply H. by apply elem_of_singleton.
Qed.

Lemma closeMobileMenu_consistent r st :
  consistent r st → consistent r (closeMobileMenu r st).
Proof.
  intros H. unfold closeMobileMenu. destruct (isMenuOpen st); [|done].
  unfold consistent. cbn [isMenuOpen dom overflow].
  rewrite classList_setAttribute, getAttribute_setAttribute,
    classList_remove_same.
  split; [|done]. split; [|done].
  intros [_ H0]%elem_of_difference. exfalso. apply H0. by apply elem_of_singleton.
Qed.

Lemma handle_consistent r ev st : consistent r st → consistent r (handle r ev st).
Proof.
  intros H. destruct ev as [|inside onToggle| |key|key|key shift active els];
    cbn [handle].
  - apply toggleMobileMenu_consistent.
  - destruct (negb (isMenuOpen st)); [done|].
    destruct (negb inside && negb onToggle); [|done].
    by apply closeMobileMenu_consistent.
  - by apply closeMobileMenu_consistent.
  - destruct (_ && _); [|done]. by apply closeMobileMenu_consistent.
  - destruct (_ || _); [|done]. apply toggleMobileMenu_consistent.
  - destruct (_ || _); [done|].
    destruct (shift && _); [done|]. by destruct (negb shift && _).
Qed.

Lemma run_consistent r evs st :
  consistent r st → consistent r (run r evs st).
Proof.
  revert st. induction evs as [|ev evs IH]; intros st H; [done|].
  apply IH. by apply handle_consistent.
Qed.

(** X10. The menu's markup follows [isMenuOpen]: if the class [is-active]
    of the menu, the attribute [aria-expanded] of the toggle and the
    [overflow] of the body agree with [isMenuOpen], they still do after
    any sequence of clicks and key presses. *)
Theorem menu_markup_consistent r evs st :
  consistent r st → consistent r (run r evs st).
Proof. apply run_consistent. Qed.

Lemma menu_markup_consistent_witness :
  consistent {| navToggle := 1%nat; navMenu := 2%nat; firstLink := Some 3%nat |}
    (run {| navToggle := 1%nat; navMenu := 2%nat; firstLink := Some 3%nat |}
       [ToggleClick; DocumentKeydown (js "Escape"); ToggleKeydown (js " ");
        DocumentClick false false]
       {| isMenuOpen := false;
          dom := setAttribute 1%nat (js "aria-expanded") (js "false")
                   (λ _, plain (js "DIV"));
          overflow := []; focus := None |}).
Proof.
  apply menu_markup_consistent. repeat split; [|done]. intros H. by vm_compute in H.
Defined.

(** Whatever the markup was, it agrees with [isMenuOpen] from the first
    toggle on. *)
Corollary menu_markup_after_toggle r evs st :
  consistent r (run r evs (toggleMobileMenu r st)).
Proof. apply run_consistent, toggleMobileMenu_consistent. Qed.

(** X11. Only the toggle opens the menu: every other listener leaves a
    closed menu exactly as it is (state and document unchanged). *)
Theorem closed_menu_stays_closed r ev st :
  isMenuOpen st = false → is_toggle ev = false → handle r ev st = st.
Proof.
  intros Hc Ht.
  destruct ev as [|inside onToggle| |key|key|key shift active els];
    cbn [handle is_toggle] in *; try done.
  - by rewrite Hc.
  - unfold closeMobileMenu. by rewrite Hc.
  - by rewrite Hc, andb_false_r.
  - by rewrite Ht.
  - by rewrite Hc.
Qed.

Lemma closed_menu_stays_closed_witness :
  handle {| navToggle := 1%nat; navMenu := 2%nat; firstLink := None |}
    (DocumentKeydown (js "Escape"))
    {| isMenuOpen := false; dom := λ _, plain (js "DIV"); overflow := []; focus := None |}
  = {| isMenuOpen := false; dom := λ _, plain (js "DIV"); overflow := []; focus := None |}.
Proof. apply closed_menu_stays_closed; reflexivity. Defined.

End Menu.

(** * Sticky header *)

Section StickyHeader.
Import Dom Sticky.
Implicit Types (st : state) (header : node) (w : window) (evs : list event).

Lemma updateStickyState_iter_frames header w k st :
  frames (Nat.iter k (updateStickyState header w) st) = frames st.
Proof.
  induction k as [|k IH]; [done|]. rewrite Nat.iter_succ.
  unfold updateStickyState at 1. by cbn [frames].
Qed.

Lemma updateStickyState_iter_ticking header w k st :
  ticking (Nat.iter (S k) (updateStickyState header w) st) = false.
Proof. by rewrite Nat.iter_succ. Qed.

Lemma handle_throttled header ev st : throttled st → throttled (handle header ev st).
Proof.
  unfold throttled. intros H. destruct ev as [|w]; cbn [handle].
  - unfold onScroll. destruct (ticking st) eqn:E; cbn; [by rewrite E | by rewrite H].
  - unfold animationFrame. rewrite updateStickyState_iter_frames. cbn [frames].
    destruct (ticking st) eqn:E; rewrite H.
    + by rewrite updateStickyState_iter_ticking.
    + done.
Qed.

Lemma run_throttled header evs st : throttled st → throttled (run header evs st).
Proof.
  revert st. induction evs as [|ev evs IH]; intros st H; [done|].
  apply IH. by apply handle_throttled.
Qed.

(** X12. Scroll events are throttled: after initialisation and any
    sequence of scroll events and animation frames, at most one update of
    the sticky state is waiting for the next frame, and one is waiting
    exactly when [ticking] is set. *)
Theorem sticky_updates_throttled header w (d : document) evs :
  let st := run header evs (initStickyNavigation header w d) in
  frames st = (if ticking st then 1 else 0)%nat.
Proof. cbv zeta. by apply run_throttled. Qed.

Lemma run_app header evs evs' st :
  run header (evs ++ evs') st = run header evs' (run header evs st).
Proof. apply foldl_app. Qed.

(** X13. No scroll event is lost: in any state reached after
    initialisation, a scroll event followed by an animation frame leaves
    the header with the class [is-sticky] exactly when the scroll position
    read at that frame ([scrollY], or [pageYOffset] when [scrollY] is 0,
    [NaN] or missing) exceeds 50, and nothing is left waiting. *)
Theorem sticky_state_follows_scroll header w0 (d : document) evs w :
  let st := run header (evs ++ [Scroll; Frame w]) (initStickyNavigation header w0 d) in
  (js "is-sticky" ∈ classList (dom st header)
   ↔ above_threshold (js_or (read (scrollY w)) (read (pageYOffset w))) = true)
  ∧ frames st = 0%nat ∧ ticking st = false.
Proof.
  cbv zeta. rewrite run_app.
  assert (H : throttled (run header evs (initStickyNavigation header w0 d)))
    by (by apply run_throttled).
  unfold throttled in H.
  set (st := run header evs (initStickyNavigation header w0 d)) in *.
  assert (Hs : frames (onScroll st) = 1%nat).
  { unfold onScroll. destruct (ticking st); cbn; [done | by rewrite H]. }
  cbn [run foldl handle]. unfold animationFrame. rewrite Hs.
  unfold Nat.iter. cbn [nat_rect]. unfold updateStickyState.
  cbn [dom frames ticking]. split; [|done].
  destruct (above_threshold _).
  - rewrite classList_add_same. split; [done|].
    intros _. by apply elem_of_union_l, elem_of_singleton.
  - rewrite classList_remove_same. split; [|done].
    intros [_ H0]%elem_of_difference. exfalso. apply H0. by apply elem_of_singleton.
Qed.

End StickyHeader.

(** * Contact form controller *)

Section FormController.
Import JsString Dom FormUI.
Implicit Types (pg : page) (st : state) (input textarea : node) (d : document).

(** Reduce the setters of the document to case analyses on node
    identifiers. *)
Local Ltac dom_cases :=
  unfold classList_add, classList_remove, classList_contains, setAttribute,
    removeAttribute, getAttribute, set_textContent, set_hidden, set_disabled,
    set_display, update in *;
  repeat case_decide; subst;
  cbn [with_classList with_attributes with_textContent with_hidden
       with_disabled with_display tagName name value value_of_text classList
       attributes textContent hidden disabled display] in *.

Lemma name_showFieldError pg input message d n :
  name (showFieldError pg input message d n) = name (d n).
Proof. unfold showFieldError. destruct (_ !! _); by dom_cases. Qed.

Lemma name_clearFieldError pg input d n :
  name (clearFieldError pg input d n) = name (d n).
Proof. unfold clearFieldError. destruct (_ !! _); by dom_cases. Qed.

Lemma in_add (c : jsstring) (X : gset jsstring) : c ∈ {[c]} ∪ X.
Proof. by apply elem_of_union_l, elem_of_singleton. Qed.

Lemma not_in_remove (c : jsstring) (X : gset jsstring) : c ∉ X ∖ {[c]}.
Proof. intros [_ H]%elem_of_difference. apply H. by apply elem_of_singleton. Qed.

Lemma in_add_other (c c' : jsstring) (X : gset jsstring) :
  c ≠ c' → (c ∈ {[c']} ∪ X ↔ c ∈ X).
Proof.
  intros H. rewrite elem_of_union, elem_of_singleton. split; [by intros [?|?] | by right].
Qed.

Lemma in_remove_other (c c' : jsstring) (X : gset jsstring) :
  c ≠ c' → (c ∈ X ∖ {[c']} ↔ c ∈ X).
Proof.
  intros H. rewrite elem_of_difference, elem_of_singleton. split; [by intros [? _] | done].
Qed.

Lemma showFieldError_marks pg input message d :
  js "error" ∈ classList (showFieldError pg input message d input)
  ∧ getAttribute input (js "aria-invalid") (showFieldError pg input message d)
    = Some (js "true").
Proof.
  unfold showFieldError. destruct (_ !! _); dom_cases;
    rewrite ?lookup_insert_eq; split; try done;
    rewrite ?in_add_other by done; apply in_add.
Qed.

Lemma clearFieldError_marks pg input d :
  (js "error" ∉ classList (clearFieldError pg input d input))
  ∧ getAttribute input (js "aria-invalid") (clearFieldError pg input d)
    = Some (js "false").
Proof.
  unfold clearFieldError. destruct (_ !! _); dom_cases;
    rewrite ?lookup_insert_eq; split; try done;
    rewrite ?in_remove_other by done; apply not_in_remove.
Qed.

Lemma showFieldError_text pg input message d e :
  getElementById pg !! (name (d input) ++ js "-error") = Some e →
  textContent (showFieldError pg input message d e) = message
  ∧ js "visible" ∈ classList (showFieldError pg input message d e).
Proof.
  intros E. unfold showFieldError. rewrite E. dom_cases; split; try done; apply in_add.
Qed.

Lemma clearFieldError_text pg input d e :
  getElementById pg !! (name (d input) ++ js "-error") = Some e →
  textContent (clearFieldError pg input d e) = VString []
  ∧ js "visible" ∉ classList (clearFieldError pg input d e).
Proof.
  intros E. unfold clearFieldError. rewrite E.
  dom_cases; split; try done; apply not_in_remove.
Qed.

Lemma valid_result_message (f : jsstring) (v : jsvalue) (h : heap) :
  Field.isValid (eval (validateField f v) h) = true →
  Field.errorMessage (eval (validateField f v) h) = VString [].
Proof.
  unfold eval.
  destruct (decide (f = js "name")) as [->|Hn];
    [rewrite validateField_name; cbn [fst]; by case_verdict|].
  destruct (decide (f = js "email")) as [->|He];
    [rewrite validateField_email; cbn [fst]; by case_verdict|].
  destruct (decide (f = js "message")) as [->|Hm];
    [rewrite validateField_message; cbn [fst]; by case_verdict|].
  rewrite validateField_other; [done|]. by apply not_rule_key.
Qed.

(** X14. After a blur, what the field shows is the verdict of
    [validateField] on its name and value: the control has the class
    [error] exactly when the value is invalid, [aria-invalid] says so, and
    the element [<name>-error], when there is one, holds the message of
    the result and is [visible] exactly when the value is invalid. *)
Theorem handleFieldBlur_shows_verdict pg input st :
  let result := eval (validateField (name (dom st input))
                        (VString (value (dom st input)))) (lastIndex st) in
  let st' := handleFieldBlur pg input st in
  (js "error" ∈ classList (dom st' input) ↔ Field.isValid result = false)
  ∧ getAttribute input (js "aria-invalid") (dom st')
    = Some (if Field.isValid result then js "false" else js "true")
  ∧ match getElementById pg !! (name (dom st input) ++ js "-error") with
    | Some errorElement =>
        textContent (dom st' errorElement) = Field.errorMessage result
        ∧ (js "visible" ∈ classList (dom st' errorElement)
           ↔ Field.isValid result = false)
    | None => True
    end.
Proof.
  cbv zeta. unfold handleFieldBlur. rewrite validateField_run. cbn [dom].
  set (result := eval _ _).
  pose proof (valid_result_message (name (dom st input))
                (VString (value (dom st input))) (lastIndex st)) as Hshape.
  fold result in Hshape.
  destruct (Field.isValid result) eqn:E; cbn [negb].
  - destruct (clearFieldError_marks pg input (dom st)) as [H1 H2].
    split; [done|]. split; [done|].
    destruct (_ !! _) as [e|] eqn:Ee; [|done].
    destruct (clearFieldError_text pg input (dom st) e Ee) as [H3 H4].
    split; [|done]. rewrite H3. symmetry. by apply Hshape.
  - destruct (showFieldError_marks pg input (Field.errorMessage result) (dom st))
      as [H1 H2].
    split; [done|]. split; [done|].
    destruct (_ !! _) as [e|] eqn:Ee; [|done].
    by destruct (showFieldError_text pg input (Field.errorMessage result) (dom st) e Ee).
Qed.

Lemma warning_threshold (n : nat) :
  Number.Z_gt (Z.of_nat n)
    (Number.mul (Number.of_nat message_maxLength) Number.literal_0_9)
  = (900 <? n)%nat.
Proof.
  replace (Number.mul (Number.of_nat message_maxLength) Number.literal_0_9)
    with (S754_finite false 7916483719987200 (-43)) by (vm_compute; reflexivity).
  unfold Number.Z_gt, Number.compare_Z.
  change (0 <=? -43)%Z with false. lazy beta iota zeta.
  change (2 ^ (- (-43)))%Z with 8796093022208%Z.
  destruct (Z.compare_spec 7916483719987200 (Z.of_nat n * 8796093022208));
    destruct (Nat.ltb_spec 900 n); (done || lia).
Qed.

Lemma updateCharacterCounter_keeps pg textarea d n :
  name (updateCharacterCounter pg textarea d n) = name (d n)
  ∧ value_of_text (updateCharacterCounter pg textarea d n) = value_of_text (d n)
  ∧ (getElementById pg !! js "message-counter" ≠ Some n →
     value (updateCharacterCounter pg textarea d n) = value (d n)
     ∧ classList (updateCharacterCounter pg textarea d n) = classList (d n))
  ∧ (value_of_text (d n) = None →
     value (updateCharacterCounter pg textarea d n) = value (d n)).
Proof.
  unfold updateCharacterCounter.
  destruct (_ !! _) as [counter|]; [|done].
  destruct (Number.Z_gt _ _), (_ <? _)%nat; dom_cases;
    repeat split; try done; by intros ->.
Qed.

(** X16. The character counter shows [<length>/1000] for the raw length
    of the text, has the class [warning] exactly above 900 code units
    (the double [1000 * 0.9] is 900) and the class [error] exactly above
    1000; without a counter element nothing changes. *)
Theorem updateCharacterCounter_thresholds pg textarea d :
  let n := length (value (d textarea)) in
  let d' := updateCharacterCounter pg textarea d in
  match getElementById pg !! js "message-counter" with
  | Some counter =>
      textContent (d' counter) = VString (Number.toString_nat n ++ js "/1000")
      ∧ (js "warning" ∈ classList (d' counter) ↔ (900 < n)%nat)
      ∧ (js "error" ∈ classList (d' counter) ↔ (1000 < n)%nat)
  | None => d' = d
  end.
Proof.
  cbv zeta. unfold updateCharacterCounter.
  destruct (_ !! _) as [counter|]; [|done].
  rewrite warning_threshold.
  change message_maxLength with 1000%nat.
  destruct (Nat.ltb_spec 900 (length (value (d textarea)))),
    (Nat.ltb_spec 1000 (length (value (d textarea)))); dom_cases;
    (split; [done|]);
    rewrite ?in_add_other, ?in_remove_other by done;
    (split; split; try lia; intros; try apply in_add;
     try (exfalso; by eapply not_in_remove)).
Qed.

Lemma trim_length_le (s : jsstring) : (length (trim s) ≤ length s)%nat.
Proof.
  destruct (trim_spec s) as (p & q & E & _).
  rewrite E at 2. rewrite !length_app. lia.
Qed.

(** X17. The counter never hides a length failure: when the message is
    rejected although its trimmed text has at least 10 code units (so it
    is too long), the counter has the class [error].  (The counter counts
    the raw text, the validator the trimmed text.) *)
Theorem counter_flags_too_long pg textarea d counter h :
  getElementById pg !! js "message-counter" = Some counter →
  Field.isValid (eval (validateField (js "message") (VString (value (d textarea)))) h)
  = false →
  (10 ≤ length (trim (value (d textarea))))%nat →
  js "error" ∈ classList (updateCharacterCounter pg textarea d counter).
Proof.
  intros Hc Hv Hmin. unfold eval in Hv. rewrite validateField_message in Hv.
  cbn [fst trimmed] in Hv. rewrite isValid_verdict in Hv.
  pose proof (trim_length_le (value (d textarea))) as Hle.
  assert (Hlong : (1000 < length (value (d textarea)))%nat).
  { apply andb_false_iff in Hv as [Hv|Hv]; [apply Nat.leb_gt in Hv; lia|].
    apply Nat.leb_gt in Hv. lia. }
  unfold updateCharacterCounter. rewrite Hc.
  change message_maxLength with 1000%nat.
  apply Nat.ltb_lt in Hlong. rewrite Hlong.
  destruct (Number.Z_gt _ _); dom_cases; try done; apply in_add.
Qed.

(** X15. Typing never marks a field: after an input event the control
    has the class [error] exactly when it had it before and the new value
    is still invalid (the control not being the counter element). *)
Theorem handleFieldInput_never_marks pg input st :
  getElementById pg !! js "message-counter" ≠ Some input →
  js "error" ∈ classList (dom (handleFieldInput pg input st) input)
  ↔ js "error" ∈ classList (dom st input)
    ∧ Field.isValid (eval (validateField (name (dom st input))
                             (VString (value (dom st input)))) (lastIndex st))
      = false.
Proof.
  intros Hc. unfold handleFieldInput.
  set (d := if eqb _ _ then _ else _).
  assert (Hd : name (d input) = name (dom st input)
               ∧ value (d input) = value (dom st input)
               ∧ classList (d input) = classList (dom st input)).
  { unfold d. destruct (eqb _ _); [|done].
    destruct (updateCharacterCounter_keeps pg input (dom st) input) as (? & _ & H & _).
    by destruct (H Hc). }
  destruct Hd as (Hn & Hv & Hcl). unfold classList_contains. rewrite Hv.
  case_bool_decide as Herr; rewrite Hcl in Herr.
  - rewrite validateField_run. cbn [dom].
    destruct (Field.isValid _) eqn:E.
    + destruct (clearFieldError_marks pg input d) as [H _].
      split; [done | by intros [_ ?]].
    + rewrite Hcl. by split; [|intros [? _]].
  - cbn [with_dom dom]. rewrite Hcl. split; [done | by intros [? _]].
Qed.

Lemma form_data_submitted (a b c : jsstring) :
  let formData : gmap jsstring jsvalue :=
    <[js "name" := VString a]>
      (<[js "email" := VString b]> (<[js "message" := VString c]> ∅)) in
  submitted formData (js "name") = VString a
  ∧ submitted formData (js "email") = VString b
  ∧ submitted formData (js "message") = VString c.
Proof.
  cbv zeta. unfold submitted.
  rewrite lookup_insert_eq.
  rewrite (lookup_insert_ne _ (js "name") (js "email")) by done.
  rewrite lookup_insert_eq.
  rewrite (lookup_insert_ne _ (js "name") (js "message")) by done.
  rewrite (lookup_insert_ne _ (js "email") (js "message")) by done.
  by rewrite lookup_insert_eq.
Qed.

Lemma handleFieldBlur_requests pg input st :
  requests (handleFieldBlur pg input st) = requests st.
Proof. unfold handleFieldBlur. by destruct (validateField _ _ _). Qed.

Lemma handleFieldInput_requests pg input st :
  requests (handleFieldInput pg input st) = requests st.
Proof.
  unfold handleFieldInput. destruct (classList_contains _ _ _); [|done].
  by destruct (validateField _ _ _).
Qed.

Lemma handleFormSubmit_settle_requests pg res st :
  requests (handleFormSubmit_settle pg res st) = requests st.
Proof.
  unfold handleFormSubmit_settle, showSuccessMessage.
  destruct res as [|[]]; try done. by destruct (_ !! js "form-success").
Qed.

Lemma handleFormSubmit_requests pg st :
  requests (handleFormSubmit pg st).1 = requests st
  ∨ ∃ req, requests (handleFormSubmit pg st).1 = req :: requests st
           ∧ request_valid req.
Proof.
  unfold handleFormSubmit.
  destruct (_ !! js "name") as [cn|]; [|by left].
  destruct (_ !! js "email") as [ce|]; [|by left].
  destruct (_ !! js "message") as [cm|]; [|by left].
  cbv zeta. rewrite validateForm_run.
  destruct (Form.isValid _) eqn:E; cbn [negb].
  - right. eexists. split; [reflexivity|].
    apply form_valid_iff in E.
    destruct (form_data_submitted (value (dom st cn)) (value (dom st ce))
                (value (dom st cm))) as (H1 & H2 & H3).
    cbv zeta in H1, H2, H3. rewrite H1, H2, H3 in E. exact E.
  - left. by destruct (show_errors _ _ _ _ _).
Qed.

(** X18. Nothing invalid is ever sent: if every request passed to [fetch]
    so far had a name of 2 to 100 code units, an e-mail of the e-mail
    shape and a message of 10 to 1000 code units (once trimmed), this
    still holds after any sequence of blurs, edits, submissions and
    settled requests. *)
Theorem requests_always_valid pg evs st :
  Forall request_valid (requests st) →
  Forall request_valid (requests (run pg evs st)).
Proof.
  revert st. induction evs as [|ev evs IH]; intros st H; [done|].
  apply IH. destruct ev as [input|input text| |res]; cbn [handle].
  - by rewrite handleFieldBlur_requests.
  - by rewrite handleFieldInput_requests.
  - destruct (handleFormSubmit_requests pg st) as [-> | (req & -> & Hreq)];
      [done | by constructor].
  - by rewrite handleFormSubmit_settle_requests.
Qed.

Lemma requests_always_valid_witness :
  Forall request_valid
    (requests
       (run sample_page
            [Input 1%nat (js "Ada"); Submit; Input 2%nat (js "a@b.c");
             Input 3%nat (js "Hello there"); Blur 3%nat; Submit; Settle (Resolved true)]
            sample_state)).
Proof. apply requests_always_valid. constructor. Defined.

Lemma showFieldError_keeps_error pg input message d n :
  js "error" ∈ classList (d n) →
  js "error" ∈ classList (showFieldError pg input message d n).
Proof.
  intros H. unfold showFieldError. destruct (_ !! _); dom_cases;
    rewrite ?elem_of_union; auto.
Qed.

Local Ltac error_marked :=
  first [ apply showFieldError_marks
        | apply showFieldError_keeps_error; error_marked ].

Lemma filter_iff_on {A} (P Q : A → Prop) `{∀ x, Decision (P x)} `{∀ x, Decision (Q x)}
    (l : list A) :
  Forall (λ x, P x ↔ Q x) l → filter P l = filter Q l.
Proof.
  induction 1 as [|x l Hx _ IH]; [done|].
  rewrite !filter_cons, IH. by repeat case_decide; try tauto.
Qed.

Lemma errors_keys_failing (formData : gmap jsstring jsvalue) (h : heap) :
  errors_keys (Form.errors (eval (validateForm formData) h))
  = filter (λ f, Field.isValid (eval (validateField f (submitted formData f)) h) = false)
      [js "name"; js "email"; js "message"].
Proof.
  unfold errors_keys.
  change (validationRules.*1) with [js "name"; js "email"; js "message"].
  apply filter_iff_on. apply Forall_forall. intros f Hf.
  unfold eval at 1, validateForm. rewrite validateForm_loop_run.
  cbn [fst Form.errors]. rewrite foldl_errors_lookup, lookup_empty.
  change (validationRules.*1) with [js "name"; js "email"; js "message"].
  rewrite (bool_decide_eq_true_2 _ Hf). cbn [andb].
  destruct (Field.isValid _); cbn [negb]; split; try done;
    try (by intros [? ?]); eauto.
Qed.

(** X19. A submission with an invalid field sends nothing: when the three
    controls exist and some field fails, no request is passed to [fetch],
    every failing control gets the class [error], and focus goes to the
    first failing control in the order name, e-mail, message. *)
Theorem handleFormSubmit_invalid pg st nameControl emailControl messageControl :
  form_elements pg !! js "name" = Some nameControl →
  form_elements pg !! js "email" = Some emailControl →
  form_elements pg !! js "message" = Some messageControl →
  let ok f c :=
    Field.isValid (eval (validateField f (VString (value (dom st c)))) (lastIndex st)) in
  ok (js "name") nameControl && ok (js "email") emailControl
    && ok (js "message") messageControl = false →
  let st' := (handleFormSubmit pg st).1 in
  (handleFormSubmit pg st).2 = Invalid
  ∧ requests st' = requests st
  ∧ focus st'
    = Some (if negb (ok (js "name") nameControl) then nameControl
            else if negb (ok (js "email") emailControl) then emailControl
            else messageControl)
  ∧ (ok (js "name") nameControl = true
     ∨ js "error" ∈ classList (dom st' nameControl))
  ∧ (ok (js "email") emailControl = true
     ∨ js "error" ∈ classList (dom st' emailControl))
  ∧ (ok (js "message") messageControl = true
     ∨ js "error" ∈ classList (dom st' messageControl)).
Proof.
  intros Hn He Hm ok Hbad. unfold handleFormSubmit. rewrite Hn, He, Hm.
  cbv zeta. rewrite validateForm_run.
  set (formData := <[js "name" := _]> _).
  destruct (form_data_submitted (value (dom st nameControl))
              (value (dom st emailControl)) (value (dom st messageControl)))
    as (S1 & S2 & S3). cbv zeta in S1, S2, S3. fold formData in S1, S2, S3.
  assert (Hvalid : Form.isValid (eval (validateForm formData) (lastIndex st)) = false).
  { unfold eval at 1, validateForm. rewrite validateForm_loop_run.
    change (validationRules.*1) with [js "name"; js "email"; js "message"].
    cbn [fst Form.isValid forallb andb]. rewrite S1, S2, S3.
    fold (ok (js "name") nameControl) (ok (js "email") emailControl)
      (ok (js "message") messageControl).
    by rewrite andb_true_r, andb_assoc. }
  rewrite Hvalid. cbn [negb]. rewrite errors_keys_failing.
  rewrite !filter_cons, filter_nil. rewrite S1, S2, S3.
  fold (ok (js "name") nameControl) (ok (js "email") emailControl)
    (ok (js "message") messageControl).
  destruct (ok (js "name") nameControl), (ok (js "email") emailControl),
    (ok (js "message") messageControl); try done;
    repeat case_decide; try done;
    cbn [show_errors]; rewrite ?Hn, ?He, ?Hm; cbn [fst snd dom focus requests negb];
    repeat split; auto; right; error_marked.
Qed.

Lemma handleFormSubmit_invalid_witness :
  focus (handleFormSubmit sample_page
           (run sample_page [Input 1%nat (js "Ada"); Input 2%nat (js "nobody")]
              sample_state)).1
  = Some 2%nat.
Proof.
  apply (handleFormSubmit_invalid sample_page
           (run sample_page [Input 1%nat (js "Ada"); Input 2%nat (js "nobody")]
              sample_state) 1%nat 2%nat 3%nat); reflexivity.
Defined.

Lemma handleFieldInput_never_marks_witness :
  js "error" ∈ classList (dom (handleFieldInput sample_page 1%nat sample_state) 1%nat)
  ↔ js "error" ∈ classList (dom sample_state 1%nat)
    ∧ Field.isValid (eval (validateField (name (dom sample_state 1%nat))
                             (VString (value (dom sample_state 1%nat))))
                       (lastIndex sample_state))
      = false.
Proof. apply handleFieldInput_never_marks. by vm_compute. Defined.

Lemma counter_flags_too_long_witness :
  js "error"
  ∈ classList
      (updateCharacterCounter sample_page 3%nat
         (update 3%nat (with_value (replicate 1001 0x41 ++ js "  ")) (dom sample_state))
         20%nat).
Proof.
  apply (counter_flags_too_long sample_page 3%nat _ 20%nat 0%nat).
  - reflexivity.
  - vm_compute. reflexivity.
  - vm_compute. lia.
Defined.

(** X20. However the request settles, the loading state is cleared: the
    submit button is enabled, without the class [loading] and with
    [aria-busy="false"].  After a successful response the success element
    is shown and focused and the form is hidden; otherwise the error
    banner is shown and no element's [display] changes, so the form stays
    in place for another attempt. *)
Theorem handleFormSubmit_settle_outcome pg res st :
  let st' := handleFormSubmit_settle pg res st in
  match getElementById pg !! js "contact-submit" with
  | Some submitButton =>
      disabled (dom st' submitButton) = false
      ∧ (js "loading" ∉ classList (dom st' submitButton))
      ∧ getAttribute submitButton (js "aria-busy") (dom st') = Some (js "false")
  | None => True
  end
  ∧ match res with
    | Resolved true =>
        match getElementById pg !! js "form-success" with
        | Some successMessage =>
            hidden (dom st' successMessage) = false ∧ focus st' = Some successMessage
        | None => focus st' = focus st
        end
        ∧ match getElementById pg !! js "contact-form" with
          | Some form => display (dom st' form) = js "none"
          | None => True
          end
    | _ =>
        match getElementById pg !! js "form-error" with
        | Some errorMessage => hidden (dom st' errorMessage) = false
        | None => True
        end
        ∧ focus st' = focus st
        ∧ ∀ n, display (dom st' n) = display (dom st n)
    end.
Proof.
  cbv zeta. unfold handleFormSubmit_settle, showSuccessMessage,
    showSubmissionError, setLoadingState.
  destruct res as [|[]];
    destruct (getElementById pg !! js "contact-submit") as [b|];
    destruct (getElementById pg !! js "form-success") as [s|];
    destruct (getElementById pg !! js "contact-form") as [f|];
    destruct (getElementById pg !! js "form-error") as [e|];
    cbn [with_dom dom focus];
    repeat split; intros; dom_cases; rewrite ?lookup_insert_eq; try done;
    apply not_in_remove.
Qed.

Lemma clearFieldError_no_error pg input d n :
  js "error" ∉ classList (d n) →
  js "error" ∉ classList (clearFieldError pg input d n).
Proof.
  intros H. unfold clearFieldError. destruct (_ !! _); dom_cases;
    rewrite ?elem_of_difference; try done; by intros [[? _] _] || by intros [? _].
Qed.

Lemma clear_inputs_no_error pg inputs d n :
  js "error" ∉ classList (d n) ∨ n ∈ inputs →
  js "error" ∉ classList (foldl (λ d input, clearFieldError pg input d) d inputs n).
Proof.
  revert d. induction inputs as [|i inputs IH]; intros d H; cbn [foldl].
  - destruct H as [H|H]; [done | by apply elem_of_nil in H].
  - apply IH. destruct H as [H|H].
    + left. by apply clearFieldError_no_error.
    + apply elem_of_cons in H as [->|H]; [|by right].
      left. apply clearFieldError_marks.
Qed.

(** X21. A valid submission: when the three controls exist and every
    field passes, the request carries the values as they are in the
    controls (not trimmed) under the form's [name] attribute, or [contact]
    when the form has none; no [.form-input] element keeps the class
    [error]; and the submit button, when there is one, is disabled, has
    the class [loading] and [aria-busy="true"]. *)
Theorem handleFormSubmit_valid pg st nameControl emailControl messageControl :
  form_elements pg !! js "name" = Some nameControl →
  form_elements pg !! js "email" = Some emailControl →
  form_elements pg !! js "message" = Some messageControl →
  let ok f c :=
    Field.isValid (eval (validateField f (VString (value (dom st c)))) (lastIndex st)) in
  ok (js "name") nameControl && ok (js "email") emailControl
    && ok (js "message") messageControl = true →
  let st' := (handleFormSubmit pg st).1 in
  ∃ req,
    (handleFormSubmit pg st).2 = Sent req
    ∧ requests st' = req :: requests st
    ∧ entry_name req = value (dom st nameControl)
    ∧ entry_email req = value (dom st emailControl)
    ∧ entry_message req = value (dom st messageControl)
    ∧ entry_form_name req
      = match getAttribute (form pg) (js "name") (dom st) with
        | Some formName => if is_empty formName then js "contact" else formName
        | None => js "contact"
        end
    ∧ Forall (λ input, js "error" ∉ classList (dom st' input)) (form_inputs pg)
    ∧ match getElementById pg !! js "contact-submit" with
      | Some submitButton =>
          disabled (dom st' submitButton) = true
          ∧ js "loading" ∈ classList (dom st' submitButton)
          ∧ getAttribute submitButton (js "aria-busy") (dom st') = Some (js "true")
      | None => True
      end.
Proof.
  intros Hn He Hm ok Hok. unfold handleFormSubmit. rewrite Hn, He, Hm.
  cbv zeta. rewrite validateForm_run.
  set (formData := <[js "name" := _]> _).
  destruct (form_data_submitted (value (dom st nameControl))
              (value (dom st emailControl)) (value (dom st messageControl)))
    as (S1 & S2 & S3). cbv zeta in S1, S2, S3. fold formData in S1, S2, S3.
  assert (Hvalid : Form.isValid (eval (validateForm formData) (lastIndex st)) = true).
  { unfold eval at 1, validateForm. rewrite validateForm_loop_run.
    change (validationRules.*1) with [js "name"; js "email"; js "message"].
    cbn [fst Form.isValid forallb andb]. rewrite S1, S2, S3.
    fold (ok (js "name") nameControl) (ok (js "email") emailControl)
      (ok (js "message") messageControl).
    by rewrite andb_true_r, andb_assoc. }
  rewrite Hvalid. cbn [negb fst snd dom requests].
  eexists. split; [reflexivity|]. split; [reflexivity|].
  cbn [submitForm entry_name entry_email entry_message entry_form_name].
  repeat (split; [done|]).
  split.
  - assert (Hattr : ∀ d, getAttribute (form pg) (js "name") (setLoadingState pg true d)
                         = getAttribute (form pg) (js "name") d).
    { intros d. unfold setLoadingState.
      destruct (getElementById pg !! _); [|done].
      dom_cases; rewrite ?lookup_insert_ne by done; done. }
    rewrite Hattr. clear Hattr.
    assert (Hclear : ∀ inputs d,
      getAttribute (form pg) (js "name")
        (foldl (λ d input, clearFieldError pg input d) d inputs)
      = getAttribute (form pg) (js "name") d).
    { induction inputs as [|i inputs IH]; intros d; [done|]. cbn [foldl].
      rewrite IH. unfold clearFieldError.
      destruct (getElementById pg !! _); dom_cases;
        rewrite ?lookup_insert_ne by done; done. }
    rewrite Hclear. unfold hideSubmissionError.
    destruct (_ !! js "form-error"); [|done]. by dom_cases.
  - split.
    + apply Forall_forall. intros input Hin.
      assert (H : js "error" ∉ classList
                (foldl (λ d input, clearFieldError pg input d)
                   (hideSubmissionError pg (dom st)) (form_inputs pg) input))
        by (apply clear_inputs_no_error; by right).
      unfold setLoadingState. destruct (_ !! js "contact-submit"); [|done].
      dom_cases; try done. by rewrite in_add_other.
    + unfold setLoadingState. destruct (_ !! js "contact-submit"); [|done].
      dom_cases; rewrite ?lookup_insert_eq; try done.
      repeat split; try done. apply in_add.
Qed.

Lemma handleFormSubmit_valid_witness :
  ∃ req,
    (handleFormSubmit sample_page
       (run sample_page
          [Input 1%nat (js " Ada "); Input 2%nat (js "a@b.c"); Input 3%nat (js "Hello there")]
          sample_state)).2 = Sent req
    ∧ entry_name req = js " Ada " ∧ entry_form_name req = js "contact".
Proof.
  destruct (handleFormSubmit_valid sample_page
              (run sample_page
                 [Input 1%nat (js " Ada "); Input 2%nat (js "a@b.c");
                  Input 3%nat (js "Hello there")]
                 sample_state) 1%nat 2%nat 3%nat)
    as (req & H1 & _ & H2 & _ & _ & H3 & _); try reflexivity.
  exists req. split; [exact H1|]. split; [exact H2 | exact H3].
Defined.

(** X22. The controller never changes what the user typed.  No listener
    assigns to the [value] or the [name] of an element; a value changes
    only where it is taken from the element's content and a listener
    writes that content.  So an element with a value of its own (every
    [input], every [textarea] that has been edited) keeps its value and
    its name through [handleFieldBlur], [handleFieldInput],
    [handleFormSubmit] and its continuation, and its value stays its own:
    validation trims a copy, and a successful submission hides the form
    without resetting it. *)
Theorem handlers_keep_values pg st input res n :
  value_of_text (dom st n) = None →
  let kept st' :=
    value (dom st' n) = value (dom st n)
    ∧ name (dom st' n) = name (dom st n)
    ∧ value_of_text (dom st' n) = None in
  kept (handleFieldBlur pg input st)
  ∧ kept (handleFieldInput pg input st)
  ∧ kept (handleFormSubmit pg st).1
  ∧ kept (handleFormSubmit_settle pg res st).
Proof.
  intros Hown. cbv zeta.
  pose (P := λ d, value (d n) = value (dom st n)
                  ∧ name (d n) = name (dom st n)
                  ∧ value_of_text (d n) = None).
  assert (H0 : P (dom st)) by done.
  assert (Hshow : ∀ i m d, P d → P (showFieldError pg i m d)).
  { intros i m d (Hv & Hm & Ht). unfold P, showFieldError.
    destruct (_ !! _); dom_cases; rewrite ?Ht; done. }
  assert (Hclear : ∀ i d, P d → P (clearFieldError pg i d)).
  { intros i d (Hv & Hm & Ht). unfold P, clearFieldError.
    destruct (_ !! _); dom_cases; rewrite ?Ht; done. }
  assert (Hload : ∀ b d, P d → P (setLoadingState pg b d)).
  { intros b d (Hv & Hm & Ht). unfold P, setLoadingState.
    destruct (_ !! _), b; dom_cases; done. }
  assert (Hcount : ∀ i d, P d → P (updateCharacterCounter pg i d)).
  { intros i d (Hv & Hm & Ht).
    destruct (updateCharacterCounter_keeps pg i d n) as (E1 & E2 & _ & E3).
    unfold P. by rewrite E1, E2, (E3 Ht). }
  split; [|split; [|split]].
  - change (P (dom (handleFieldBlur pg input st))).
    unfold handleFieldBlur. destruct (validateField _ _ _) as [result h].
    cbn [dom]. destruct (negb _); [by apply Hshow | by apply Hclear].
  - change (P (dom (handleFieldInput pg input st))).
    unfold handleFieldInput.
    set (d := if eqb _ _ then _ else _).
    assert (Hd : P d) by (unfold d; destruct (eqb _ _); [by apply Hcount | done]).
    destruct (classList_contains _ _ _); [|done].
    destruct (validateField _ _ _) as [result h]. cbn [dom].
    destruct (Field.isValid result); [by apply Hclear | done].
  - change (P (dom (handleFormSubmit pg st).1)).
    unfold handleFormSubmit.
    destruct (_ !! js "name") as [cn|]; [|done].
    destruct (_ !! js "email") as [ce|]; [|done].
    destruct (_ !! js "message") as [cm|]; [|done].
    cbv zeta. destruct (validateForm _ _) as [validation h].
    assert (Hhide : P (hideSubmissionError pg (dom st))).
    { unfold P, hideSubmissionError. destruct (_ !! _); by dom_cases. }
    assert (Hinputs : ∀ inputs d,
      P d → P (foldl (λ d input, clearFieldError pg input d) d inputs)).
    { induction inputs as [|i inputs IH]; intros d Hd; [done|]. cbn [foldl].
      by apply IH, Hclear. }
    assert (Herrs : ∀ keys errors d first,
      P d → P (show_errors pg keys errors d first).1).
    { induction keys as [|k keys IH]; intros errors d first Hd; [done|].
      cbn [show_errors]. destruct (form_elements pg !! k); [|by apply IH].
      by apply IH, Hshow. }
    destruct (negb _).
    + specialize (Herrs (errors_keys (Form.errors validation)) (Form.errors validation)
                    (foldl (λ d input, clearFieldError pg input d)
                       (hideSubmissionError pg (dom st)) (form_inputs pg)) None
                    (Hinputs _ _ Hhide)).
      by destruct (show_errors _ _ _ _ _) as [d' first].
    + cbn [fst dom]. by apply Hload, Hinputs.
  - change (P (dom (handleFormSubmit_settle pg res st))).
    unfold handleFormSubmit_settle. cbn [with_dom dom]. apply Hload.
    unfold P, showSuccessMessage, showSubmissionError.
    destruct res as [|[]]; cbn [with_dom dom];
      repeat (destruct (_ !! _)); cbn [with_dom dom]; by dom_cases.
Qed.

Lemma handlers_keep_values_witness :
  let st := run sample_page [Input 3%nat (js "Hello there")] sample_state in
  let kept st' :=
    value (dom st' 3%nat) = value (dom st 3%nat)
    ∧ name (dom st' 3%nat) = name (dom st 3%nat)
    ∧ value_of_text (dom st' 3%nat) = None in
  kept (handleFieldBlur sample_page 3%nat st)
  ∧ kept (handleFieldInput sample_page 3%nat st)
  ∧ kept (handleFormSubmit sample_page st).1
  ∧ kept (handleFormSubmit_settle sample_page (Resolved false) st).
Proof. apply handlers_keep_values. reflexivity. Defined.

End FormController.

(** * More test vectors *)

Section MoreVectors.
Import JsString Dom.

Example cleanId_vectors :
  map SmoothScroll.cleanId [ js "#about"; js "about"; js "##about"; [] ]
  = [ js "about"; js "about"; js "#about"; [] ].
Proof. vm_compute. reflexivity. Qed.

Example link_targets :
  map SmoothScroll.handleNavLinkClick_target
      [ None; Some []; Some (js "#"); Some (js "/contact"); Some (js "#contact") ]
  = [ None; None; None; None; Some (js "contact") ].
Proof. vm_compute. reflexivity. Qed.

Example getNavOffset_vectors :
  map SmoothScroll.getNavOffset
      [ js "70px"; js " 64px"; []; js "auto"; js "px"; js "+5"; js "0" ]
  = [ Number.of_nat 70; Number.of_nat 64; Number.of_nat 70; Number.of_nat 70;
      Number.of_nat 70; Number.of_nat 5; S754_zero false ].
Proof. vm_compute. reflexivity. Qed.

(** From 2^53 on [parseInt] rounds: 2^53 + 1 is read as 2^53. *)
Example getNavOffset_rounds :
  let offset := SmoothScroll.getNavOffset (js "9007199254740993px") in
  Number.compare_Z offset 9007199254740993 = Some Lt
  ∧ Number.compare_Z offset 9007199254740992 = Some Eq.
Proof. vm_compute. split; reflexivity. Qed.

(** 50, 50.5 and 51 pixels; a position of 0 with a [pageYOffset] of 60;
    no position at all. *)
Example sticky_threshold_vectors :
  map (λ w, Sticky.above_threshold
              (js_or (Sticky.read (Sticky.scrollY w)) (Sticky.read (Sticky.pageYOffset w))))
      [ {| Sticky.scrollY := Some (Number.of_nat 50); Sticky.pageYOffset := None |};
        {| Sticky.scrollY := Some (S754_finite false 101 (-1)); Sticky.pageYOffset := None |};
        {| Sticky.scrollY := Some (Number.of_nat 51); Sticky.pageYOffset := None |};
        {| Sticky.scrollY := Some (S754_zero false);
           Sticky.pageYOffset := Some (Number.of_nat 60) |};
        {| Sticky.scrollY := None; Sticky.pageYOffset := None |} ]
  = [ false; true; true; true; false ].
Proof. vm_compute. reflexivity. Qed.

Example counter_text :
  textContent
    (FormUI.updateCharacterCounter FormUI.sample_page 3%nat
       (update 3%nat (FormUI.with_value (js "Hello")) (FormUI.dom FormUI.sample_state))
       20%nat)
  = VString (js "5/1000").
Proof. vm_compute. reflexivity. Qed.

(** A counter that is an [output] element takes its value from the text
    written into it, while the edited control keeps what was typed. *)
Example counter_output_value :
  let output :=
    {| tagName := js "OUTPUT"; name := []; value := [];
       value_of_text := Some (λ v, match v with VString s => s | _ => [] end);
       classList := ∅; attributes := ∅; textContent := VString [];
       hidden := false; disabled := false; display := [] |} in
  let d :=
    FormUI.updateCharacterCounter FormUI.sample_page 3%nat
      (update 20%nat (λ _, output)
         (update 3%nat (FormUI.with_value (js "Hello")) (FormUI.dom FormUI.sample_state))) in
  value (d 20%nat) = js "5/1000" ∧ value (d 3%nat) = js "Hello".
Proof. vm_compute. split; reflexivity. Qed.

(** A message of 1000 letters followed by a space passes validation while
    the counter, which counts the raw text, is over the limit. *)
Example counter_stricter_than_validator :
  let text := replicate 1000 0x41 ++ js " " in
  Field.isValid (run (validateField (js "message") (VString text))) = true
  ∧ classList_contains 20%nat (js "error")
      (FormUI.updateCharacterCounter FormUI.sample_page 3%nat
         (update 3%nat (FormUI.with_value text) (FormUI.dom FormUI.sample_state)))
    = true.
Proof. vm_compute. split; reflexivity. Qed.

End MoreVectors.
